(** * foss4g-2021: the cluster option handler and the notebooks' own code

    The repository is a set of workshop notebooks and the configuration of
    the JupyterHub they run on.  The code of its own that is embedded here:

    - the dask-gateway [option_handler] of [config.yaml], which turns the
      options a user picks into the resources of a worker pod ([Gateway]);
    - the array builder of [hurricane-florence-animation.ipynb], which sorts
      the signed STAC items by acquisition time, opens one raster per
      requested band and concatenates them along [band] and [time]
      ([Florence]), with the storm lookup and the bounding box of the same
      notebook ([Track]);
    - the band arithmetic of the notebooks, the vegetation index and the
      simulated green ([Bands], over the floats of [Float]);
    - the two summer periods of [distributed-geospatial.ipynb] ([Daymet]);
    - the loop that fixes and signs the Landsat items ([Landsat]).

    The library calls this code makes ([planetary_computer.sign],
    [rioxarray.open_rasterio]) are parameters.  The catalog search,
    [stackstac.stack] and the dask scheduler are libraries the notebooks
    call; they are not modelled. *)

From Stdlib Require Import ZArith QArith Qminmax Qround Qpower.
From Stdlib Require Import List String Ascii Bool.
From Stdlib Require Import Sorting Permutation.
From Stdlib Require Import Lia Lqa.
From Stdlib Require DecimalString.
Import ListNotations.

Local Open Scope string_scope.

(** ** Python exceptions and results *)

Inductive exn : Type :=
| ValueError (msg : string)
| IndexError (msg : string)
| KeyError (key : string)
| RasterioIOError (msg : string).

(** A Python expression either raises or yields a value. *)
Definition result (A : Type) : Type := (exn + A)%type.

Definition ret {A} (a : A) : result A := inr a.
Definition raise {A} (e : exn) : result A := inl e.

Definition bind {A B} (m : result A) (k : A -> result B) : result B :=
  match m with
  | inl e => inl e
  | inr a => k a
  end.

Declare Scope result_scope.
Delimit Scope result_scope with result.
Notation "x <- m ;; k" := (bind m (fun x => k))
  (at level 61, m at next level, right associativity) : result_scope.

Definition raises {A} (m : result A) : Prop := exists e, m = inl e.
Definition returns {A} (m : result A) : Prop := exists a, m = inr a.

(** A list comprehension [[f x for x in l]]: left to right, the first
    exception ends it. *)
Fixpoint mapM {A B} (f : A -> result B) (l : list A) : result (list B) :=
  match l with
  | [] => ret []
  | x :: l' =>
      (y <- f x ;;
       ys <- mapM f l' ;;
       ret (y :: ys))%result
  end.

(** [s.startswith(p)] *)
Fixpoint startswith (s p : string) {struct p} : bool :=
  match p, s with
  | EmptyString, _ => true
  | String a p', String b s' => Ascii.eqb a b && startswith s' p'
  | String _ _, EmptyString => false
  end.

(** [needle in hay] on Python strings: [needle] occurs as a substring. *)
Fixpoint str_in (needle hay : string) : bool :=
  startswith hay needle ||
  match hay with
  | EmptyString => false
  | String _ hay' => str_in needle hay'
  end.

(** The characters of a string. *)
Definition chars (s : string) : list ascii := list_ascii_of_string s.

(** ** The dask-gateway option handler ([config.yaml], [01-optionHandler]) *)

Module Gateway.

(** [Float(name, default, min=, max=, label=)] *)
Record FloatField : Type := {
  ff_name : string;
  ff_default : Q;
  ff_min : Q;
  ff_max : Q;
  ff_label : string
}.

(** [String(name, default=, label=)] *)
Record StringField : Type := {
  sf_name : string;
  sf_default : string;
  sf_label : string
}.

Definition worker_cores_field : FloatField :=
  {| ff_name := "worker_cores"; ff_default := 1; ff_min := 1; ff_max := 16;
     ff_label := "Worker Cores" |}.

Definition worker_memory_field : FloatField :=
  {| ff_name := "worker_memory"; ff_default := 8; ff_min := 8; ff_max := 128;
     ff_label := "Worker Memory (GiB)" |}.

Definition image_field : StringField :=
  {| sf_name := "image"; sf_default := "pangeo/pangeo-notebook:latest";
     sf_label := "Image" |}.

(** A value the field accepts: within [min] and [max]. *)
Definition in_range (f : FloatField) (x : Q) : Prop :=
  ff_min f <= x /\ x <= ff_max f.

(** The [options] object the handler receives. *)
Record options : Type := {
  worker_cores : Q;
  worker_memory : Q;
  image : string;
  environment : list (string * string)
}.

(** The options of a user who picks nothing. *)
Definition default_options : options :=
  {| worker_cores := ff_default worker_cores_field;
     worker_memory := ff_default worker_memory_field;
     image := sf_default image_field;
     environment := [] |}.

(** The mapping the handler returns. *)
Record cluster_config : Type := {
  cfg_worker_cores : Q;
  cfg_worker_cores_limit : Q;
  cfg_worker_memory : string;
  cfg_worker_memory_limit : string;
  cfg_image : string;
  cfg_environment : list (string * string)
}.

(** *** ["%f"]: six decimals, ties to even *)

Definition round_half_even (x : Q) : Z :=
  let n := Qfloor x in
  match Qcompare (x - inject_Z n) (1 # 2) with
  | Lt => n
  | Gt => (n + 1)%Z
  | Eq => if Z.even n then n else (n + 1)%Z
  end.

(** The number ["%f" % x] prints, in millionths. *)
Definition micro (x : Q) : Z := round_half_even (x * 1000000).

Definition string_of_Z (z : Z) : string :=
  DecimalString.NilZero.string_of_int (Z.to_int z).

Fixpoint zeros (n : nat) : string :=
  match n with
  | O => ""
  | S n' => String "0" (zeros n')
  end.

(** [s] padded with zeros on the left to [n] characters. *)
Definition pad_left (n : nat) (s : string) : string :=
  zeros (n - String.length s) ++ s.

Definition format_f (x : Q) : string :=
  let m := Z.abs (micro x) in
  (if Qlt_le_dec x 0 then "-" else "") ++
  string_of_Z (m / 1000000) ++ "." ++ pad_left 6 (string_of_Z (m mod 1000000)).

(** ["%fG" % x] *)
Definition format_fG (x : Q) : string := format_f x ++ "G".

(** *** Python floats *)

Definition pow2 (e : Z) : Q := 2 ^ e.

(** The exponent of the binade of a positive [x]: [2^e <= x < 2^(e+1)]. *)
Definition ilog2 (x : Q) : Z :=
  let e0 := (Z.log2 (Qnum x) - Z.log2 (Zpos (Qden x)))%Z in
  if Qle_bool (pow2 e0) x then e0 else (e0 - 1)%Z.

(** [x] rounded to [prec] significant bits, to nearest and ties to even
    (the exponent is not bounded). *)
Definition round_to (prec : Z) (x : Q) : Q :=
  match Qcompare x 0 with
  | Eq => 0
  | Gt => let e := (ilog2 x - (prec - 1))%Z in
          inject_Z (round_half_even (x / pow2 e)) * pow2 e
  | Lt => let e := (ilog2 (- x) - (prec - 1))%Z in
          - (inject_Z (round_half_even (- x / pow2 e)) * pow2 e)
  end.

(** A Python float is a binary64: 53 significant bits.  The exponent is
    left free here, so this is the float of Python wherever the result is
    neither below [2^-1022] nor above the largest float, as it is for the
    numbers of the handler, between 0.44 and 128. *)
Definition binary64 : Q -> Q := round_to 53.

(** The relative error of one binary64 rounding, [2^-53]. *)
Definition eps64 : Q := 1 # 9007199254740992.

Section Handler.

(** An operation on floats returns the exact result rounded to a float,
    [rnd]; the handler is written over the rounding, [binary64] in
    Python. *)
Variable rnd : Q -> Q.

Definition fmul (x y : Q) : Q := rnd (x * y).
Definition fdiv (x y : Q) : Q := rnd (x / y).

(** A decimal literal of the source, [0.88] or [0.9]. *)
Definition literal (q : Q) : Q := rnd q.

(** [0.88 * min(options.worker_cores / 2, 1)] *)
Definition cores_request (o : options) : Q :=
  fmul (literal (88 # 100)) (Qmin (fdiv (worker_cores o) 2) 1).

(** [0.9 * options.worker_memory] *)
Definition memory_request (o : options) : Q :=
  fmul (literal (9 # 10)) (worker_memory o).

Definition option_handler (o : options) : result cluster_config :=
  if negb (str_in ":" (image o)) then
    raise (ValueError "When specifying an image you must also provide a tag")
  else
    ret {| cfg_worker_cores := cores_request o;
           cfg_worker_cores_limit := worker_cores o;
           cfg_worker_memory := format_fG (memory_request o);
           cfg_worker_memory_limit := format_fG (worker_memory o);
           cfg_image := image o;
           cfg_environment := environment o |}.

(** [Options(Float(...), Float(...), String(...), Mapping(...), handler=...)] *)
Record Options : Type := {
  opt_worker_cores : FloatField;
  opt_worker_memory : FloatField;
  opt_image : StringField;
  opt_environment : list (string * string);
  handler : options -> result cluster_config
}.

Definition cluster_options (user : string) : Options :=
  {| opt_worker_cores := worker_cores_field;
     opt_worker_memory := worker_memory_field;
     opt_image := image_field;
     opt_environment := [];
     handler := option_handler |}.

End Handler.

End Gateway.

(** ** The GOES array builder ([hurricane-florence-animation.ipynb]) *)

Module Florence.

(** A Python [dict] with string keys, as its items in insertion order. *)
Definition dict (V : Type) : Type := list (string * V).

(** [d[k]] *)
Fixpoint dict_get {V} (d : dict V) (k : string) : result V :=
  match d with
  | [] => raise (KeyError k)
  | (k', v) :: d' => if String.eqb k' k then ret v else dict_get d' k
  end.

(** [l[0]] *)
Definition first {A} (l : list A) : result A :=
  match l with
  | [] => raise (IndexError "list index out of range")
  | x :: _ => ret x
  end.

(** A STAC asset: where the raster is, and the [eo:bands] entry of its
    [extra_fields] when it has one (a list of string-keyed dicts). *)
Record Asset : Type := {
  href : string;
  eo_bands : option (list (dict string))
}.

(** A STAC item: one scene, with its acquisition time (the items of the
    [goes-cmi] collection all carry one; nanoseconds since the epoch) and
    one asset per band. *)
Record Item : Type := {
  item_id : string;
  datetime : Z;
  assets : dict Asset
}.

(** [sorted(l, key=key)]: Python's sort is stable, so the result is the
    one of a stable insertion sort. *)
Fixpoint insert_by {A} (key : A -> Z) (x : A) (l : list A) : list A :=
  match l with
  | [] => [x]
  | y :: l' =>
      if (key x <=? key y)%Z then x :: y :: l' else y :: insert_by key x l'
  end.

Fixpoint sorted {A} (key : A -> Z) (l : list A) : list A :=
  match l with
  | [] => []
  | x :: l' => insert_by key x (sorted key l')
  end.

(** [asset.extra_fields["eo:bands"][0]["common_name"]] *)
Definition common_name (a : Asset) : result string :=
  match eo_bands a with
  | None => raise (KeyError "eo:bands")
  | Some bs => (b <- first bs ;; dict_get b "common_name")%result
  end.

Section Build.

(** One band of an opened raster; the builder never looks inside. *)
Variable Plane : Type.

(** [planetary_computer.sign]: the item with signed asset URLs. *)
Variable sign : Item -> Item.

(** [rioxarray.open_rasterio]: the bands of the raster behind a URL, or the
    exception it raises. *)
Variable open_rasterio : string -> result (list Plane).

(** An array with dimensions [(band, y, x)]. *)
Record BandArray : Type := {
  ba_band : list string;
  ba_planes : list Plane
}.

(** The array [data], with dimensions [(time, band, y, x)]: the two
    labelled axes and, for each position on the time axis, the planes along
    the band axis. *)
Record DataArray : Type := {
  name : string;
  time : list Z;
  band : list string;
  values : list (list Plane)
}.

(** [signed_items = sorted([sign(item) for item in items], key=lambda x: x.datetime)] *)
Definition signed_items_of (items : list Item) : list Item :=
  sorted datetime (map sign items).

(** [items[0].assets[band].extra_fields["eo:bands"][0]["common_name"]] *)
Definition band_label (items : list Item) (b : string) : result string :=
  (it <- first items ;;
   a <- dict_get (assets it) b ;;
   common_name a)%result.

(** [common_names = [... for band in bands]] *)
Definition common_names_of (items : list Item) (bands : list string)
  : result (list string) :=
  mapM (band_label items) bands.

(** [[rioxarray.open_rasterio(item.assets[band].href) for band in bands]] *)
Definition open_bands (bands : list string) (it : Item)
  : result (list (list Plane)) :=
  mapM (fun b =>
          (a <- dict_get (assets it) b ;;
           open_rasterio (href a))%result) bands.

(** [xr.concat(rasters, dim="band")]: an empty list is refused. *)
Definition concat_band (rasters : list (list Plane)) : result (list Plane) :=
  match rasters with
  | [] => raise (ValueError "must supply at least one object to concatenate")
  | _ => ret (List.concat rasters)
  end.

(** [.assign_coords(band=names)]: the labels must fit the axis. *)
Definition assign_coords_band (names : list string) (planes : list Plane)
  : result BandArray :=
  if Nat.eqb (List.length names) (List.length planes) then
    ret {| ba_band := names; ba_planes := planes |}
  else
    raise (ValueError "conflicting sizes for dimension 'band'").

(** One element of [arrays]. *)
Definition item_array (bands names : list string) (it : Item)
  : result BandArray :=
  (rasters <- open_bands bands it ;;
   planes <- concat_band rasters ;;
   assign_coords_band names planes)%result.

(** [xr.concat(arrays, dim=time).rename("goes")]: one position on the new
    axis per array, labelled by [time]; the arrays all carry the same band
    labels, which the result keeps. *)
Definition concat_time (t : list Z) (arrays : list BandArray)
  : result DataArray :=
  match arrays with
  | [] => raise (ValueError "must supply at least one object to concatenate")
  | a :: _ =>
      ret {| name := "goes";
             time := t;
             band := ba_band a;
             values := map ba_planes arrays |}
  end.

(** The cells that sort the items and build [data]. *)
Definition build (items : list Item) (bands : list string)
  : result DataArray :=
  let signed_items := signed_items_of items in
  (common_names <- common_names_of items bands ;;
   let t := map datetime signed_items in
   arrays <- mapM (item_array bands common_names) signed_items ;;
   concat_time t arrays)%result.

(** [bands = ["C01_2km", "C02_2km", "C03_2km"]] *)
Definition bands : list string := ["C01_2km"; "C02_2km"; "C03_2km"].

(** [row] holds the requested bands of [it]: its rasters, opened and laid
    side by side along [band]. *)
Definition holds_bands_of (bands : list string) (it : Item) (row : list Plane)
  : Prop :=
  exists rasters,
    open_bands bands it = inr rasters /\ row = List.concat rasters.

(** The positions of the time axis that carry the label [t], as
    [data.sel(time=t)] finds them. *)
Fixpoint sel_time (labels : list Z) (rows : list (list Plane)) (t : Z)
  : list (list Plane) :=
  match labels, rows with
  | l :: labels', r :: rows' =>
      if (l =? t)%Z then r :: sel_time labels' rows' t
      else sel_time labels' rows' t
  | _, _ => []
  end.

Definition resolves_to (d : DataArray) (t : Z) : list (list Plane) :=
  sel_time (time d) (values d) t.

(** [rioxarray.open_rasterio(signed_items[0].assets["C01_2km"].href).load()]:
    the raster the notebook looks at before it builds the array. *)
Definition preview (items : list Item) : result (list Plane) :=
  (it <- first (signed_items_of items) ;;
   a <- dict_get (assets it) "C01_2km" ;;
   open_rasterio (href a))%result.

End Build.

(** *** Scenes to run the builder on *)

(** A GOES scene with the three assets the notebook asks for. *)
Definition goes_asset (scene band cn : string) : string * Asset :=
  (band, {| href := "https://goes/" ++ scene ++ "/" ++ band ++ ".tif";
            eo_bands := Some [[("name", band); ("common_name", cn)]] |}).

Definition goes_item (scene : string) (t : Z) : Item :=
  {| item_id := scene;
     datetime := t;
     assets := [goes_asset scene "C01_2km" "blue";
                goes_asset scene "C02_2km" "red";
                goes_asset scene "C03_2km" "nir09"] |}.

(** A signing that appends a token to every URL. *)
Definition sign_token (it : Item) : Item :=
  {| item_id := item_id it;
     datetime := datetime it;
     assets := map (fun ka => (fst ka, {| href := href (snd ka) ++ "?sig";
                                          eo_bands := eo_bands (snd ka) |}))
                   (assets it) |}.

(** A raster store in which every URL holds one band, named by the URL. *)
Definition open_by_url (url : string) : result (list string) := ret [url].

(** The same store with one URL that cannot be reached. *)
Definition open_unless (bad url : string) : result (list string) :=
  if String.eqb url bad then raise (RasterioIOError url) else ret [url].

End Florence.

(** ** Floats with their special values *)

Module Float.
Import Gateway.

Local Open Scope Q_scope.

(** What is asked of a rounding to stand for a float format: it respects
    equality and order, commutes with the sign, and keeps 1 and the
    positive numbers positive. *)
Record Rounding (rnd : Q -> Q) : Prop := {
  rnd_comp : forall x y, x == y -> rnd x == rnd y;
  rnd_mono : forall x y, x <= y -> rnd x <= rnd y;
  rnd_opp : forall x, rnd (- x) == - rnd x;
  rnd_one : rnd 1 == 1;
  rnd_pos : forall x, 0 < x -> 0 < rnd x
}.

(** The same without the last: a rounding to nearest of a format with a
    least exponent, under which a small positive number rounds to zero. *)
Record Nearest (rnd : Q -> Q) : Prop := {
  near_comp : forall x y, x == y -> rnd x == rnd y;
  near_mono : forall x y, x <= y -> rnd x <= rnd y;
  near_opp : forall x, rnd (- x) == - rnd x;
  near_one : rnd 1 == 1
}.

(** The least exponent of a binary64, that of its subnormal numbers. *)
Definition emin : Z := -1074.

(** [x] rounded to a binary64 as numpy's [float64] has it: 53 significant
    bits, fewer below [2^-1022], where the numbers are [2^-1074] apart, so
    that what is less than half of that rounds to zero.  What is too large
    is dealt with by [finite] below. *)
Definition double (x : Q) : Q :=
  match Qcompare x 0 with
  | Eq => 0
  | Gt => let e := Z.max (ilog2 x - 52) emin in
          inject_Z (round_half_even (x / pow2 e)) * pow2 e
  | Lt => let e := Z.max (ilog2 (- x) - 52) emin in
          - (inject_Z (round_half_even (- x / pow2 e)) * pow2 e)
  end.

(** The largest binary64, [(2^53 - 1) * 2^971]. *)
Definition double_max : Q := inject_Z ((2 ^ 53 - 1) * 2 ^ 971).

(** The least normal binary64, [2^-1022]. *)
Definition double_tiny : Q := pow2 (-1022).

(** A value of a float array: a number, an infinity or NaN (zero is not
    signed). *)
Inductive float : Type :=
| Num (q : Q)
| PosInf
| NegInf
| NaN.

(** [x > 0]: false on NaN. *)
Definition gt0 (x : float) : bool :=
  match x with
  | Num q => negb (Qle_bool q 0)
  | PosInf => true
  | NegInf => false
  | NaN => false
  end.

(** [x.where(cond)]: [x] where [cond] holds, NaN elsewhere. *)
Definition where_ (cond : bool) (x : float) : float :=
  if cond then x else NaN.

Definition neg (x : float) : float :=
  match x with
  | Num q => Num (- q)
  | PosInf => NegInf
  | NegInf => PosInf
  | NaN => NaN
  end.

Section Arith.

(** The rounding of the format, [double] for [float64]. *)
Variable rnd : Q -> Q.

(** The largest number of the format, [double_max] for [float64]. *)
Variable fmax : Q.

(** The result of an operation, once rounded: what is beyond the largest
    number overflows to an infinity. *)
Definition finite (q : Q) : float :=
  if Qlt_le_dec fmax q then PosInf
  else if Qlt_le_dec q (- fmax) then NegInf
  else Num q.

(** [x + y] *)
Definition add (x y : float) : float :=
  match x, y with
  | NaN, _ => NaN
  | _, NaN => NaN
  | Num a, Num b => finite (rnd (a + b))
  | PosInf, NegInf => NaN
  | NegInf, PosInf => NaN
  | PosInf, _ => PosInf
  | _, PosInf => PosInf
  | NegInf, _ => NegInf
  | _, NegInf => NegInf
  end.

(** [x - y] *)
Definition sub (x y : float) : float := add x (neg y).

(** The infinity of the sign of [a], NaN for zero. *)
Definition signed_inf (a : Q) (positive : bool) : float :=
  match Qcompare a 0 with
  | Eq => NaN
  | Gt => if positive then PosInf else NegInf
  | Lt => if positive then NegInf else PosInf
  end.

(** [x * y] *)
Definition mul (x y : float) : float :=
  match x, y with
  | NaN, _ => NaN
  | _, NaN => NaN
  | Num a, Num b => finite (rnd (a * b))
  | Num a, PosInf => signed_inf a true
  | Num a, NegInf => signed_inf a false
  | PosInf, Num b => signed_inf b true
  | NegInf, Num b => signed_inf b false
  | PosInf, PosInf => PosInf
  | NegInf, NegInf => PosInf
  | PosInf, NegInf => NegInf
  | NegInf, PosInf => NegInf
  end.

(** [x / y], as numpy divides: a division by zero gives an infinity, or
    NaN for 0 / 0, and raises nothing. *)
Definition div (x y : float) : float :=
  match x, y with
  | NaN, _ => NaN
  | _, NaN => NaN
  | Num a, Num b =>
      match Qcompare b 0 with
      | Eq => signed_inf a true
      | _ => finite (rnd (a / b))
      end
  | Num _, PosInf => Num 0
  | Num _, NegInf => Num 0
  | PosInf, Num b => if Qlt_le_dec b 0 then NegInf else PosInf
  | NegInf, Num b => if Qlt_le_dec b 0 then PosInf else NegInf
  | _, _ => NaN
  end.

(** A decimal literal of the source. *)
Definition lit (q : Q) : float := finite (rnd q).

(** A value that an array of the format can hold: a number of it is one
    that the rounding leaves alone and that is not beyond the largest. *)
Definition representable (x : float) : Prop :=
  match x with
  | Num q => rnd q == q /\ - fmax <= q /\ q <= fmax
  | _ => True
  end.

End Arith.

End Float.

(** ** The band arithmetic of the notebooks *)

Module Bands.
Import Float.

(** [.where(lambda x: x > 0)  # filter out nodata] *)
Definition filter_nodata (x : float) : float := where_ (gt0 x) x.

Section Arith.

Variable rnd : Q -> Q.
Variable fmax : Q.

(** [ndvi = (nir - red) / (nir + red)], one pixel of it; also
    [NDVI = (DS.SR_B5 - DS.SR_B4) / (DS.SR_B5 + DS.SR_B4)]. *)
Definition ndvi (nir red : float) : float :=
  div rnd fmax (sub rnd fmax nir red) (add rnd fmax nir red).

(** [green = 0.45 * red + 0.1 * nir09 + 0.45 * blue], one pixel of it. *)
Definition green (red nir09 blue : float) : float :=
  add rnd fmax
    (add rnd fmax (mul rnd fmax (lit rnd fmax (45 # 100)) red)
                  (mul rnd fmax (lit rnd fmax (1 # 10)) nir09))
    (mul rnd fmax (lit rnd fmax (45 # 100)) blue).

End Arith.

End Bands.

(** ** The track of the storm ([hurricane-florence-animation.ipynb]) *)

Module Track.

Local Open Scope Z_scope.

(** A row of [df]: a time (nanoseconds since the epoch, UTC) and a point. *)
Record Fix : Type := {
  fix_time : Z;
  lon : Q;
  lat : Q
}.

Definition ns_per_day : Z := 86400 * 1000000000.

(** [.dt.date] and [.date()]: the day a time falls on, as a day number. *)
Definition date (t : Z) : Z := t / ns_per_day.

(** [start = pd.Timestamp("2018-09-11T13:00:00Z")] *)
Definition start : Z := 1536670800 * 1000000000.

(** [stop = pd.Timestamp("2018-09-11T15:40:00Z")] *)
Definition stop : Z := 1536680400 * 1000000000.

(** [subset = df[df.time.dt.date == start.date()]] *)
Definition subset (df : list Fix) : list Fix :=
  filter (fun r => date (fix_time r) =? date start) df.

(** [.total_bounds] of points: [(minx, miny, maxx, maxy)]; of no point at
    all it is four NaN, [None] here. *)
Definition widen (b : Q * Q * Q * Q) (p : Fix) : Q * Q * Q * Q :=
  let '(minx, miny, maxx, maxy) := b in
  (Qmin minx (lon p), Qmin miny (lat p), Qmax maxx (lon p), Qmax maxy (lat p)).

Definition total_bounds (rows : list Fix) : option (Q * Q * Q * Q) :=
  match rows with
  | [] => None
  | r :: rest => Some (fold_left widen rest (lon r, lat r, lon r, lat r))
  end.

(** [bbox = list(subset.total_bounds)] *)
Definition bbox (df : list Fix) : option (Q * Q * Q * Q) :=
  total_bounds (subset df).

(** The position of the first [True], if there is one. *)
Fixpoint first_true (l : list bool) : option nat :=
  match l with
  | [] => None
  | true :: _ => Some O
  | false :: l' => option_map S (first_true l')
  end.

(** [.argmax()] of a boolean array: the position of the first [True], and
    0 when there is none; an empty array is refused. *)
Definition argmax (l : list bool) : result nat :=
  match l with
  | [] => raise (ValueError "attempt to get argmax of an empty sequence")
  | _ => ret (match first_true l with
              | Some i => i
              | None => O
              end)
  end.

(** [storm_loc = (ds.sid == STORM_ID).argmax().item()] *)
Definition storm_loc (sid : list string) (storm_id : string) : result nat :=
  argmax (map (fun s => String.eqb s storm_id) sid).

(** [STORM_ID = b"2018242N13343"] *)
Definition STORM_ID : string := "2018242N13343".

End Track.

(** ** The summer periods ([distributed-geospatial.ipynb]) *)

Module Daymet.

Local Open Scope Z_scope.

(** A calendar date, as in ["1988-12-31"]. *)
Record Date : Type := {
  year : Z;
  month : Z;
  day : Z
}.

Definition date_leb (a b : Date) : bool :=
  (year a <? year b) ||
  ((year a =? year b) &&
   ((month a <? month b) ||
    ((month a =? month b) && (day a <=? day b)))).

(** [slice(start, stop)] on time labels; [None] leaves a side open. *)
Record Slice : Type := {
  slice_start : option Date;
  slice_stop : option Date
}.

(** [summer_months = [6, 7, 8]] *)
Definition summer_months : list Z := [6; 7; 8].

(** [early_period = slice(None, "1988-12-31")] *)
Definition early_period : Slice :=
  {| slice_start := None;
     slice_stop := Some {| year := 1988; month := 12; day := 31 |} |}.

(** [late_period = slice("1988-01-01", "2018-12-31")] *)
Definition late_period : Slice :=
  {| slice_start := Some {| year := 1988; month := 1; day := 1 |};
     slice_stop := Some {| year := 2018; month := 12; day := 31 |} |}.

(** [x.isin(l)] *)
Definition isin (x : Z) (l : list Z) : bool := existsb (Z.eqb x) l.

(** A label lies in a slice: both ends count. *)
Definition in_slice (s : Slice) (t : Date) : bool :=
  match slice_start s with
  | None => true
  | Some a => date_leb a t
  end &&
  match slice_stop s with
  | None => true
  | Some b => date_leb t b
  end.

Section Series.

(** What the array holds at one time step. *)
Variable V : Type.

(** [summer = ds.tmax.where(ds.time.dt.month.isin(summer_months), drop=True)]:
    the time steps of the summer months, in order. *)
Definition summer (ts : list (Date * V)) : list (Date * V) :=
  filter (fun tv => isin (month (fst tv)) summer_months) ts.

(** [.sel(time=period)]: the time steps whose label lies in the slice. *)
Definition sel (period : Slice) (ts : list (Date * V)) : list (Date * V) :=
  filter (fun tv => in_slice period (fst tv)) ts.

End Series.

End Daymet.

(** ** The Landsat items and their metadata (the Pangeo stack notebook) *)

Module Landsat.
Import Florence.

(** A value of a [properties] dict. *)
Inductive json : Type :=
| JInt (z : Z)
| JString (s : string)
| JNull.

(** [d[k] = v]: the value of [k] is replaced where [k] is, a new key goes
    last. *)
Fixpoint dict_set {V} (d : dict V) (k : string) (v : V) : dict V :=
  match d with
  | [] => [(k, v)]
  | (k', v') :: d' =>
      if String.eqb k' k then (k, v) :: d' else (k', v') :: dict_set d' k v
  end.

(** A STAC item as an object: what [properties] and [links] hold. *)
Record StacItem : Type := {
  stac_id : string;
  properties : dict json;
  links : list string
}.

(** The objects of the session; a variable holds the position of one. *)
Definition heap : Type := list StacItem.

(** A new object. *)
Definition alloc (h : heap) (v : StacItem) : heap * nat :=
  ((h ++ [v])%list, List.length h).

Fixpoint set_nth {A} (n : nat) (x : A) (l : list A) : list A :=
  match l, n with
  | [], _ => []
  | _ :: l', O => x :: l'
  | y :: l', S n' => y :: set_nth n' x l'
  end.

(** The object at [r] changed in place. *)
Definition update (h : heap) (r : nat) (f : StacItem -> StacItem) : heap :=
  match nth_error h r with
  | Some v => set_nth r (f v) h
  | None => h
  end.

(** [item.properties['proj:epsg'] = 32619] *)
Definition set_epsg (v : StacItem) : StacItem :=
  {| stac_id := stac_id v;
     properties := dict_set (properties v) "proj:epsg" (JInt 32619);
     links := links v |}.

(** [item.clear_links()] *)
Definition clear_links (v : StacItem) : StacItem :=
  {| stac_id := stac_id v; properties := properties v; links := [] |}.

Section Loop.

(** [planetary_computer.sign]: the signed item, a new object. *)
Variable sign : StacItem -> StacItem.

(** The body of the loop, for the item at [r]: clone it, set the EPSG code
    and clear the links of the clone, sign the clone and append the
    result. *)
Definition step (st : heap * list nat) (r : nat) : option (heap * list nat) :=
  let '(h, signed_items) := st in
  match nth_error h r with
  | None => None
  | Some v =>
      let '(h1, item) := alloc h v in
      let h2 := update h1 item set_epsg in
      let h3 := update h2 item clear_links in
      match nth_error h3 item with
      | None => None
      | Some v' =>
          let '(h4, s) := alloc h3 (sign v') in
          Some (h4, (signed_items ++ [s])%list)
      end
  end.

(** [signed_items = []; for item in items: ...] *)
Definition sign_all (h : heap) (items : list nat) : option (heap * list nat) :=
  fold_left (fun st r => match st with
                         | Some st' => step st' r
                         | None => None
                         end)
            items (Some (h, [])).

End Loop.

End Landsat.

Arguments Florence.build {Plane} sign open_rasterio items bands.
Arguments Florence.open_bands {Plane} open_rasterio bands it.
Arguments Florence.item_array {Plane} open_rasterio bands names it.
Arguments Florence.concat_band {Plane} rasters.
Arguments Florence.assign_coords_band {Plane} names planes.
Arguments Florence.concat_time {Plane} t arrays.
Arguments Florence.resolves_to {Plane} d t.
Arguments Florence.holds_bands_of {Plane} open_rasterio bands it row.
Arguments Florence.sel_time {Plane} labels rows t.
Arguments Florence.name {Plane} d.
Arguments Florence.time {Plane} d.
Arguments Florence.band {Plane} d.
Arguments Florence.values {Plane} d.
Arguments Florence.ba_band {Plane} b.
Arguments Florence.ba_planes {Plane} b.
Arguments Florence.preview {Plane} sign open_rasterio items.
Arguments Daymet.summer {V} ts.
Arguments Daymet.sel {V} period ts.

(** * Properties *)

(** ** Results and strings *)

Lemma bind_inr {A B} (m : result A) (k : A -> result B) (b : B) :
  bind m k = inr b -> exists a, m = inr a /\ k a = inr b.
Proof.
  destruct m as [e | a]; simpl; intros H.
  - discriminate.
  - exists a. split; [reflexivity | exact H].
Qed.

Lemma mapM_Forall2 {A B} (f : A -> result B) (l : list A) (ys : list B) :
  mapM f l = inr ys <-> Forall2 (fun x y => f x = inr y) l ys.
Proof.
  revert ys. induction l as [| x l IH]; intros ys; simpl.
  - split; intros H.
    + inversion H. constructor.
    + inversion H. reflexivity.
  - split; intros H.
    + apply bind_inr in H. destruct H as [y [Hy H]].
      apply bind_inr in H. destruct H as [ys' [Hys H]].
      inversion H; subst. constructor; [exact Hy | apply IH; exact Hys].
    + inversion H as [| x' y l' ys' Hy Hrest]; subst.
      rewrite Hy. simpl. apply IH in Hrest. rewrite Hrest. reflexivity.
Qed.

Lemma mapM_length {A B} (f : A -> result B) (l : list A) (ys : list B) :
  mapM f l = inr ys -> List.length ys = List.length l.
Proof.
  intros H. apply mapM_Forall2 in H.
  induction H; simpl; congruence.
Qed.

Lemma mapM_returns {A B} (f : A -> result B) (l : list A) :
  (forall x, In x l -> returns (f x)) -> returns (mapM f l).
Proof.
  unfold returns. induction l as [| x l IH]; intros Hall; simpl.
  - eexists. reflexivity.
  - destruct (Hall x (or_introl eq_refl)) as [y Hy].
    destruct IH as [ys Hys].
    { intros x' Hx'. apply Hall. right. exact Hx'. }
    rewrite Hy. simpl. rewrite Hys. simpl. eexists. reflexivity.
Qed.

Lemma mapM_ext_in {A B} (f g : A -> result B) (l : list A) :
  (forall x, In x l -> f x = g x) -> mapM f l = mapM g l.
Proof.
  induction l as [| x l IH]; intros Hfg; simpl.
  - reflexivity.
  - rewrite (Hfg x (or_introl eq_refl)).
    rewrite IH; [reflexivity |].
    intros x' Hx'. apply Hfg. right. exact Hx'.
Qed.

Lemma mapM_raises {A B} (f : A -> result B) (l : list A) (x : A) :
  In x l -> raises (f x) -> raises (mapM f l).
Proof.
  unfold raises. induction l as [| y l IH]; intros Hin Hx.
  - destruct Hin.
  - simpl. destruct (f y) as [e | b] eqn:Hy; simpl.
    + exists e. reflexivity.
    + destruct Hin as [-> | Hin].
      * destruct Hx as [e He]. congruence.
      * destruct (IH Hin Hx) as [e He]. rewrite He. simpl.
        exists e. reflexivity.
Qed.

Lemma startswith_colon (s : string) :
  startswith s ":" = true <-> exists s', s = String ":" s'.
Proof.
  destruct s as [| c s].
  - simpl. split; [discriminate | intros [s' H]; discriminate].
  - change (startswith (String c s) ":") with (Ascii.eqb ":" c && true).
    rewrite andb_true_r.
    destruct (Ascii.eqb_spec ":" c) as [Hc | Hc].
    + subst c. split; [intros _; exists s; reflexivity | reflexivity].
    + split; [discriminate |].
      intros [s' H]. inversion H. congruence.
Qed.

(** For a needle of one character, [in] is membership of that character. *)
Lemma str_in_colon (s : string) :
  str_in ":" s = true <-> In ":"%char (chars s).
Proof.
  induction s as [| c s IH].
  - simpl. split; [discriminate | intros []].
  - change (str_in ":" (String c s))
      with (startswith (String c s) ":" || str_in ":" s).
    rewrite orb_true_iff, IH, startswith_colon. simpl. split.
    + intros [[s' H] | H]; [left; inversion H; reflexivity | right; exact H].
    + intros [H | H]; [left; exists s; subst c; reflexivity | right; exact H].
Qed.

(** ** The option handler *)

Module GatewayFacts.
Import Gateway.

Local Open Scope Q_scope.

(** Rounding to the nearest integer moves a number by at most a half. *)
Lemma round_half_even_near (x : Q) :
  inject_Z (round_half_even x) - (1 # 2) <= x /\
  x <= inject_Z (round_half_even x) + (1 # 2).
Proof.
  unfold round_half_even.
  pose proof (Qfloor_le x) as Hlo.
  pose proof (Qlt_floor x) as Hhi.
  rewrite inject_Z_plus in Hhi.
  change (inject_Z 1) with 1 in Hhi.
  destruct (Qcompare_spec (x - inject_Z (Qfloor x)) (1 # 2)) as [He | Hl | Hg].
  - destruct (Z.even (Qfloor x)).
    + split; lra.
    + rewrite inject_Z_plus. change (inject_Z 1) with 1. split; lra.
  - split; lra.
  - rewrite inject_Z_plus. change (inject_Z 1) with 1. split; lra.
Qed.

(** Two numbers two millionths apart are printed as different numbers, in
    the same order. *)
Lemma micro_lt (x y : Q) :
  x + (2 # 1000000) <= y -> (micro x < micro y)%Z.
Proof.
  intros H. unfold micro.
  destruct (round_half_even_near (x * 1000000)) as [Hx _].
  destruct (round_half_even_near (y * 1000000)) as [_ Hy].
  rewrite Zlt_Qlt. lra.
Qed.

Lemma pow2_pos (e : Z) : 0 < pow2 e.
Proof. apply Qpower_0_lt. reflexivity. Qed.

Lemma pow2_add (a b : Z) : pow2 (a + b) == pow2 a * pow2 b.
Proof. apply Qpower_plus. discriminate. Qed.

Lemma pow2_inject (n : Z) : (0 <= n)%Z -> inject_Z (2 ^ n) == pow2 n.
Proof. intros Hn. apply Zpower_Qpower. exact Hn. Qed.

(** [ilog2 x] is the exponent of the binade of [x]. *)
Lemma ilog2_spec (x : Q) :
  0 < x -> pow2 (ilog2 x) <= x /\ x < pow2 (ilog2 x + 1).
Proof.
  intros Hx. unfold ilog2.
  destruct x as [p q]. simpl Qnum. simpl Qden.
  assert (Hp : (0 < p)%Z).
  { unfold Qlt in Hx. simpl in Hx. lia. }
  set (lp := Z.log2 p). set (lq := Z.log2 (Z.pos q)).
  assert (Hlp0 : (0 <= lp)%Z) by apply Z.log2_nonneg.
  assert (Hlq0 : (0 <= lq)%Z) by apply Z.log2_nonneg.
  destruct (Z.log2_spec p Hp) as [Hp1 Hp2].
  destruct (Z.log2_spec (Z.pos q) (Pos2Z.is_pos q)) as [Hq1 Hq2].
  fold lp in Hp1, Hp2. fold lq in Hq1, Hq2.
  rewrite Zle_Qle, pow2_inject in Hp1 by exact Hlp0.
  rewrite Zlt_Qlt, pow2_inject in Hp2 by lia.
  rewrite Zle_Qle, pow2_inject in Hq1 by exact Hlq0.
  rewrite Zlt_Qlt, pow2_inject in Hq2 by lia.
  assert (Hq : 0 < inject_Z (Z.pos q)) by reflexivity.
  assert (Hlow : pow2 (lp - lq - 1) <= p # q).
  { rewrite Qmake_Qdiv. apply Qle_shift_div_l; [exact Hq |].
    apply Qle_trans with (pow2 (lp - lq - 1) * pow2 (Z.succ lq)).
    - rewrite !(Qmult_comm (pow2 (lp - lq - 1))).
      apply Qmult_le_compat_r; [apply Qlt_le_weak; exact Hq2 |].
      apply Qlt_le_weak, pow2_pos.
    - rewrite <- pow2_add.
      replace (lp - lq - 1 + Z.succ lq)%Z with lp by lia. exact Hp1. }
  assert (Hhigh : p # q < pow2 (lp - lq + 1)).
  { rewrite Qmake_Qdiv. apply Qlt_shift_div_r; [exact Hq |].
    apply Qlt_le_trans with (pow2 (Z.succ lp)); [exact Hp2 |].
    replace (Z.succ lp) with (lp - lq + 1 + lq)%Z by lia.
    rewrite pow2_add.
    rewrite !(Qmult_comm (pow2 (lp - lq + 1))).
    apply Qmult_le_compat_r; [exact Hq1 |].
    apply Qlt_le_weak, pow2_pos. }
  destruct (Qle_bool (pow2 (lp - lq)) (p # q)) eqn:Htest.
  - split; [apply Qle_bool_iff; exact Htest | exact Hhigh].
  - split; [exact Hlow |].
    replace (lp - lq - 1 + 1)%Z with (lp - lq)%Z by lia.
    apply Qnot_le_lt. intros Hle.
    apply Qle_bool_iff in Hle. congruence.
Qed.

(** A number at least [2^52] moves by a relative [2^-53] at most when it is
    rounded to an integer. *)
Lemma round_half_even_relative (y : Q) :
  pow2 52 <= y ->
  (1 - eps64) * y <= inject_Z (round_half_even y) /\
  inject_Z (round_half_even y) <= (1 + eps64) * y.
Proof.
  intros Hy. destruct (round_half_even_near y) as [Hlo Hhi].
  change (pow2 52) with (4503599627370496 # 1) in Hy.
  unfold eps64. split; lra.
Qed.

Lemma binary64_near (x : Q) :
  0 <= x ->
  (1 - eps64) * x <= binary64 x /\ binary64 x <= (1 + eps64) * x.
Proof.
  intros Hx. unfold binary64, round_to.
  destruct (Qcompare_spec x 0) as [H0 | Hneg | Hpos].
  - rewrite H0. split; discriminate.
  - exfalso. apply (Qlt_not_le _ _ Hneg). exact Hx.
  - set (e := (ilog2 x - (53 - 1))%Z).
    pose proof (pow2_pos e) as He.
    destruct (ilog2_spec x Hpos) as [Hlog _].
    assert (Hy : pow2 52 <= x / pow2 e).
    { apply Qle_shift_div_l; [exact He |].
      rewrite <- pow2_add.
      replace (52 + e)%Z with (ilog2 x) by (unfold e; lia). exact Hlog. }
    destruct (round_half_even_relative _ Hy) as [Hlo Hhi].
    set (m := inject_Z (round_half_even (x / pow2 e))) in *.
    assert (Hx' : x == x / pow2 e * pow2 e).
    { field. apply Qnot_eq_sym, Qlt_not_eq. exact He. }
    split.
    + apply Qle_trans with ((1 - eps64) * (x / pow2 e) * pow2 e).
      * rewrite <- Qmult_assoc, <- Hx'. apply Qle_refl.
      * apply Qmult_le_compat_r; [exact Hlo | apply Qlt_le_weak; exact He].
    + apply Qle_trans with ((1 + eps64) * (x / pow2 e) * pow2 e).
      * apply Qmult_le_compat_r; [exact Hhi | apply Qlt_le_weak; exact He].
      * rewrite <- Qmult_assoc, <- Hx'. apply Qle_refl.
Qed.

Section Rounding.

Variable rnd : Q -> Q.

(** The relative error of one rounding. *)
Variable eps : Q.

Hypothesis eps_small : 0 <= eps /\ eps <= 1 # 100.

(** The standard model of floating-point arithmetic: a result is the exact
    one with a relative error of at most [eps]. *)
Hypothesis rnd_near :
  forall x, 0 <= x -> (1 - eps) * x <= rnd x /\ rnd x <= (1 + eps) * x.

Lemma rnd_nonneg (x : Q) : 0 <= x -> 0 <= rnd x.
Proof.
  intros Hx. destruct (rnd_near x Hx) as [Hlo _].
  assert (0 <= (1 - eps) * x) by (apply Qmult_le_0_compat; lra).
  lra.
Qed.

Lemma rnd_le (x : Q) : 0 <= x -> rnd x <= (101 # 100) * x.
Proof.
  intros Hx. destruct (rnd_near x Hx) as [_ Hhi].
  assert (eps * x <= (1 # 100) * x) by (apply Qmult_le_compat_r; lra).
  lra.
Qed.

(** The CPU request is below one core. *)
Lemma cores_request_le_1 (o : options) :
  1 <= worker_cores o -> cores_request rnd o <= 1.
Proof.
  intros Hc. unfold cores_request, fmul, fdiv, literal.
  set (a := rnd (88 # 100)).
  set (b := rnd (worker_cores o / 2)).
  assert (Ha0 : 0 <= a) by (apply rnd_nonneg; lra).
  assert (Ha1 : a <= (101 # 100) * (88 # 100)) by (apply rnd_le; lra).
  assert (Hhalf : 0 <= worker_cores o / 2).
  { unfold Qdiv. apply Qmult_le_0_compat; [lra | discriminate]. }
  assert (Hb0 : 0 <= b) by (apply rnd_nonneg; exact Hhalf).
  assert (Hm0 : 0 <= Qmin b 1) by (apply Q.min_glb; lra).
  assert (Hm1 : Qmin b 1 <= 1) by apply Q.le_min_r.
  assert (Hp0 : 0 <= a * Qmin b 1) by (apply Qmult_le_0_compat; assumption).
  assert (Hp1 : a * Qmin b 1 <= a * 1).
  { rewrite !(Qmult_comm a). apply Qmult_le_compat_r; assumption. }
  pose proof (rnd_le _ Hp0) as Hr.
  lra.
Qed.

(** The memory request stays a fixed fraction below the memory itself. *)
Lemma memory_request_le (o : options) :
  0 <= worker_memory o ->
  memory_request rnd o <= (92 # 100) * worker_memory o.
Proof.
  intros Hm. unfold memory_request, fmul, literal.
  set (a := rnd (9 # 10)).
  assert (Ha0 : 0 <= a) by (apply rnd_nonneg; lra).
  assert (Ha1 : a <= (101 # 100) * (9 # 10)) by (apply rnd_le; lra).
  assert (Hp0 : 0 <= a * worker_memory o)
    by (apply Qmult_le_0_compat; assumption).
  assert (Hp1 : a * worker_memory o <= (101 # 100) * (9 # 10) * worker_memory o)
    by (apply Qmult_le_compat_r; assumption).
  pose proof (rnd_le _ Hp0) as Hr.
  lra.
Qed.

(** C9: for every [worker_cores] in [1, 16] and [worker_memory] in
    [8, 128] on which the handler returns, the request it returns is within
    the limit it returns: the CPU request [0.88 * min(worker_cores / 2, 1)]
    is at most [worker_cores_limit], which is [worker_cores], and the memory
    request [0.9 * worker_memory] is strictly below [worker_memory_limit],
    which is [worker_memory], both as numbers and as the six-decimal numbers
    printed into the two ["%fG"] strings. *)
Theorem option_handler_request_within_limit (o : options) (cfg : cluster_config) :
  in_range worker_cores_field (worker_cores o) ->
  in_range worker_memory_field (worker_memory o) ->
  option_handler rnd o = inr cfg ->
  cfg_worker_cores cfg = cores_request rnd o /\
  cfg_worker_cores_limit cfg = worker_cores o /\
  cfg_worker_cores cfg <= cfg_worker_cores_limit cfg /\
  cfg_worker_memory cfg = format_fG (memory_request rnd o) /\
  cfg_worker_memory_limit cfg = format_fG (worker_memory o) /\
  memory_request rnd o < worker_memory o /\
  (micro (memory_request rnd o) < micro (worker_memory o))%Z.
Proof.
  intros [Hc1 Hc16] [Hm8 Hm128] Hret.
  simpl in Hc1, Hc16, Hm8, Hm128.
  unfold option_handler in Hret.
  destruct (negb (str_in ":" (image o))); [discriminate |].
  injection Hret as <-. simpl.
  pose proof (cores_request_le_1 o Hc1) as Hcores.
  assert (Hmem : memory_request rnd o <= (92 # 100) * worker_memory o)
    by (apply memory_request_le; lra).
  repeat split; try reflexivity.
  - lra.
  - lra.
  - apply micro_lt. lra.
Qed.

(** C10: the handler raises a [ValueError] exactly when the image string
    has no [":"], and exactly when it has one the handler returns the
    options mapping, with the image and the environment as they were
    given. *)
Theorem option_handler_raises_iff_no_tag (o : options) :
  ((exists msg, option_handler rnd o = inl (ValueError msg)) <->
   ~ In ":"%char (chars (image o))) /\
  ((exists cfg, option_handler rnd o = inr cfg /\
                cfg_image cfg = image o /\
                cfg_environment cfg = environment o) <->
   In ":"%char (chars (image o))).
Proof.
  unfold option_handler.
  rewrite <- str_in_colon.
  destruct (str_in ":" (image o)); simpl; split; split.
  - intros [msg H]. discriminate.
  - intros H. exfalso. apply H. reflexivity.
  - intros _. reflexivity.
  - intros _. eexists. repeat split.
  - intros _. discriminate.
  - intros _. eexists. reflexivity.
  - intros [cfg [H _]]. discriminate.
  - discriminate.
Qed.

End Rounding.

(** The largest worker: 0.88 of a core against a limit of 16,
    ["115.200000G"] against ["128.000000G"]. *)
Lemma option_handler_largest_worker :
  let o := {| worker_cores := 16; worker_memory := 128;
              image := "pangeo/pangeo-notebook:latest";
              environment := [("GDAL_HTTP_MAX_RETRY", "5")]%string |} in
  exists cfg,
    option_handler binary64 o = inr cfg /\
    cfg_worker_cores cfg = cores_request binary64 o /\
    cfg_worker_cores_limit cfg = worker_cores o /\
    cfg_worker_cores cfg <= cfg_worker_cores_limit cfg /\
    cfg_worker_memory cfg = format_fG (memory_request binary64 o) /\
    cfg_worker_memory_limit cfg = format_fG (worker_memory o) /\
    memory_request binary64 o < worker_memory o /\
    (micro (memory_request binary64 o) < micro (worker_memory o))%Z.
Proof.
  intros o. eexists. split.
  - reflexivity.
  - apply (option_handler_request_within_limit binary64 eps64).
    + split; discriminate.
    + exact binary64_near.
    + split; discriminate.
    + split; discriminate.
    + reflexivity.
Defined.

Example largest_worker_memory_strings :
  option_map (fun cfg => (cfg_worker_memory cfg, cfg_worker_memory_limit cfg))
    (match option_handler binary64
             {| worker_cores := 16; worker_memory := 128;
                image := "pangeo/pangeo-notebook:latest";
                environment := [] |} with
     | inr cfg => Some cfg
     | inl _ => None
     end) = Some ("115.200000G", "128.000000G")%string.
Proof. vm_compute. reflexivity. Qed.

(** The options of a user who picks nothing: 0.44 of a core (the float
    nearest to it) against a limit of 1. *)
Example option_handler_default :
  option_handler binary64 default_options =
  inr {| cfg_worker_cores := binary64 (44 # 100);
         cfg_worker_cores_limit := 1;
         cfg_worker_memory := "7.200000G";
         cfg_worker_memory_limit := "8.000000G";
         cfg_image := "pangeo/pangeo-notebook:latest";
         cfg_environment := [] |}.
Proof. vm_compute. reflexivity. Qed.

Example option_handler_untagged :
  option_handler binary64
    {| worker_cores := 1; worker_memory := 8;
       image := "pangeo/pangeo-notebook"; environment := [] |} =
  inl (ValueError "When specifying an image you must also provide a tag").
Proof. reflexivity. Qed.

End GatewayFacts.

(** ** The array builder *)

Module FlorenceFacts.
Import Florence.

Local Open Scope Z_scope.

Section Sorted.

Context {A : Type} (key : A -> Z).

Lemma insert_by_perm (x : A) (l : list A) :
  Permutation (insert_by key x l) (x :: l).
Proof.
  induction l as [| y l IH]; simpl.
  - apply Permutation_refl.
  - destruct (key x <=? key y).
    + apply Permutation_refl.
    + apply perm_trans with (y :: x :: l).
      * apply perm_skip. exact IH.
      * apply perm_swap.
Qed.

(** Sorting loses and invents nothing. *)
Lemma sorted_perm (l : list A) : Permutation (sorted key l) l.
Proof.
  induction l as [| x l IH]; simpl.
  - apply perm_nil.
  - apply perm_trans with (x :: sorted key l).
    + apply insert_by_perm.
    + apply perm_skip. exact IH.
Qed.

Lemma insert_by_hd (x y : A) (l : list A) :
  key y <= key x ->
  HdRel Z.le (key y) (map key l) ->
  HdRel Z.le (key y) (map key (insert_by key x l)).
Proof.
  intros Hyx Hhd. destruct l as [| z l]; simpl.
  - constructor. exact Hyx.
  - destruct (key x <=? key z); simpl.
    + constructor. exact Hyx.
    + inversion Hhd; subst. constructor. assumption.
Qed.

Lemma insert_by_sorted (x : A) (l : list A) :
  Sorted Z.le (map key l) -> Sorted Z.le (map key (insert_by key x l)).
Proof.
  induction l as [| y l IH]; simpl; intros Hs.
  - constructor; constructor.
  - destruct (Z.leb_spec (key x) (key y)) as [Hle | Hgt]; simpl.
    + constructor; [exact Hs | constructor; exact Hle].
    + inversion Hs as [| ? ? Hs' Hhd]; subst.
      constructor.
      * apply IH. exact Hs'.
      * apply insert_by_hd; [lia | exact Hhd].
Qed.

(** The keys of a sorted list ascend. *)
Lemma sorted_ascending (l : list A) : Sorted Z.le (map key (sorted key l)).
Proof.
  induction l as [| x l IH]; simpl.
  - constructor.
  - apply insert_by_sorted. exact IH.
Qed.

Lemma insert_by_filter (k : Z) (x : A) (l : list A) :
  filter (fun y => key y =? k) (insert_by key x l) =
  filter (fun y => key y =? k) (x :: l).
Proof.
  induction l as [| y l IH].
  - reflexivity.
  - simpl insert_by.
    destruct (Z.leb_spec (key x) (key y)) as [Hle | Hgt].
    + reflexivity.
    + change (filter (fun y0 => key y0 =? k) (y :: insert_by key x l))
        with (if key y =? k
              then y :: filter (fun y0 => key y0 =? k) (insert_by key x l)
              else filter (fun y0 => key y0 =? k) (insert_by key x l)).
      rewrite IH. simpl.
      destruct (Z.eqb_spec (key y) k) as [Hy | Hy];
        destruct (Z.eqb_spec (key x) k) as [Hx | Hx];
        try reflexivity.
      lia.
Qed.

(** The sort is stable: the elements with one key keep their order. *)
Lemma sorted_stable (k : Z) (l : list A) :
  filter (fun y => key y =? k) (sorted key l) =
  filter (fun y => key y =? k) l.
Proof.
  induction l as [| x l IH]; simpl sorted.
  - reflexivity.
  - rewrite insert_by_filter. simpl. rewrite IH. reflexivity.
Qed.

End Sorted.

Section Build.

Variable Plane : Type.
Variable sign : Item -> Item.
Variable open_rasterio : string -> result (list Plane).

Lemma item_array_inv (bands names : list string) (it : Item) (a : BandArray Plane) :
  item_array open_rasterio bands names it = inr a ->
  ba_band a = names /\ holds_bands_of open_rasterio bands it (ba_planes a).
Proof.
  unfold item_array. intros H.
  apply bind_inr in H. destruct H as [rasters [Hopen H]].
  apply bind_inr in H. destruct H as [planes [Hcat H]].
  unfold assign_coords_band in H.
  destruct (Nat.eqb _ _); [| discriminate].
  injection H as <-. simpl.
  split; [reflexivity |].
  unfold holds_bands_of.
  exists rasters. split; [exact Hopen |].
  destruct rasters; simpl in Hcat; [discriminate |].
  injection Hcat as <-. reflexivity.
Qed.

Lemma build_inv (items : list Item) (bands : list string) (d : DataArray Plane) :
  build sign open_rasterio items bands = inr d ->
  exists names arrays,
    common_names_of items bands = inr names /\
    mapM (item_array open_rasterio bands names) (signed_items_of sign items)
      = inr arrays /\
    arrays <> [] /\
    name d = "goes"%string /\
    time d = map datetime (signed_items_of sign items) /\
    band d = names /\
    values d = map ba_planes arrays.
Proof.
  unfold build. intros H.
  apply bind_inr in H. destruct H as [names [Hnames H]].
  apply bind_inr in H. destruct H as [arrays [Harrays H]].
  exists names, arrays.
  destruct arrays as [| a arrays]; simpl in H; [discriminate |].
  injection H as <-. simpl.
  repeat split; try assumption; try discriminate.
  pose proof Harrays as Hall. apply mapM_Forall2 in Hall.
  inversion Hall as [| it a' its arrays' Ha Hrest]; subst.
  apply item_array_inv in Ha. apply Ha.
Qed.

Lemma rows_of_arrays (bands names : list string) (its : list Item)
      (arrays : list (BandArray Plane)) :
  mapM (item_array open_rasterio bands names) its = inr arrays ->
  Forall2 (holds_bands_of open_rasterio bands) its (map ba_planes arrays).
Proof.
  intros H. apply mapM_Forall2 in H.
  induction H as [| it a its arrays Ha _ IH]; simpl.
  - constructor.
  - constructor; [| exact IH].
    apply item_array_inv in Ha. apply Ha.
Qed.

Lemma sel_time_rows {R : Item -> list Plane -> Prop} (its : list Item)
      (rows : list (list Plane)) (t : Z) :
  Forall2 R its rows ->
  Forall2 R (filter (fun it => datetime it =? t) its)
            (sel_time (map datetime its) rows t).
Proof.
  induction 1 as [| it row its rows Hrow _ IH]; simpl.
  - constructor.
  - destruct (datetime it =? t).
    + constructor; [exact Hrow | exact IH].
    + exact IH.
Qed.

Lemma open_bands_single (bands : list string) (it : Item) :
  (forall b, In b bands ->
     exists a p, dict_get (assets it) b = inr a /\
                 open_rasterio (href a) = inr [p]) ->
  exists rasters,
    open_bands open_rasterio bands it = inr rasters /\
    List.length rasters = List.length bands /\
    List.length (List.concat rasters) = List.length bands.
Proof.
  unfold open_bands.
  induction bands as [| b bands IH]; intros Hall.
  - exists []. repeat split.
  - destruct (Hall b (or_introl eq_refl)) as [a [p [Ha Hp]]].
    destruct IH as [rasters [Hr [Hlen Hcat]]].
    { intros b' Hb'. apply Hall. right. exact Hb'. }
    exists ([p] :: rasters). simpl.
    rewrite Ha. simpl. rewrite Hp. simpl. rewrite Hr. simpl.
    repeat split; congruence.
Qed.

(** The builder returns an array whenever there is an item and a band to
    load, the first item names every requested band, and every requested
    asset of every signed item opens as a raster of one band. *)
Lemma build_returns (items : list Item) (bands : list string) :
  items <> [] ->
  bands <> [] ->
  (forall b, In b bands -> returns (band_label items b)) ->
  (forall it b, In it (map sign items) -> In b bands ->
     exists a p, dict_get (assets it) b = inr a /\
                 open_rasterio (href a) = inr [p]) ->
  returns (build sign open_rasterio items bands).
Proof.
  intros Hitems Hbands Hlabels Hopen.
  destruct (mapM_returns (band_label items) bands Hlabels) as [names Hnames].
  assert (Harrays : returns (mapM (item_array open_rasterio bands names)
                                  (signed_items_of sign items))).
  { apply mapM_returns. intros it Hit.
    assert (Hin : In it (map sign items)).
    { apply (Permutation_in it (sorted_perm datetime (map sign items))).
      exact Hit. }
    destruct (open_bands_single bands it (fun b => Hopen it b Hin))
      as [rasters [Hr [Hlen Hcat]]].
    unfold returns, item_array. rewrite Hr. simpl.
    destruct rasters as [| r rasters].
    - destruct bands; [contradiction | discriminate].
    - unfold concat_band, assign_coords_band, bind, ret.
      rewrite (mapM_length _ _ _ Hnames), Hcat, Nat.eqb_refl.
      eexists. reflexivity. }
  destruct Harrays as [arrays Harrays].
  unfold returns, build. fold (common_names_of items bands).
  unfold common_names_of. rewrite Hnames. simpl. rewrite Harrays. simpl.
  destruct arrays as [| a arrays].
  - apply mapM_length in Harrays. unfold signed_items_of in Harrays.
    rewrite (Permutation_length (sorted_perm datetime (map sign items))) in Harrays.
    rewrite length_map in Harrays.
    destruct items; [contradiction | discriminate].
  - eexists. reflexivity.
Qed.

Lemma signed_item_in (items : list Item) (it : Item) :
  In it (signed_items_of sign items) -> In it (map sign items).
Proof.
  apply Permutation_in. apply sorted_perm.
Qed.

Lemma signed_item_in_rev (items : list Item) (it : Item) :
  In it (map sign items) -> In it (signed_items_of sign items).
Proof.
  apply Permutation_in. apply Permutation_sym. apply sorted_perm.
Qed.

(** The build is not local to the notebook.  It
    opens the requested assets of the signed items, and what the store
    answers decides its outcome: two stores that answer alike on the URLs
    of those assets give the same outcome, whatever else they hold, and a
    store that fails to open one of them makes the build fail. *)
Theorem build_opens_requested_assets
        (open' : string -> result (list Plane))
        (items : list Item) (bands : list string) :
  ((forall it b a,
       In it (map sign items) -> In b bands ->
       dict_get (assets it) b = inr a ->
       open_rasterio (href a) = open' (href a)) ->
   build sign open_rasterio items bands = build sign open' items bands) /\
  (forall it b a,
      In it (map sign items) -> In b bands ->
      dict_get (assets it) b = inr a ->
      raises (open_rasterio (href a)) ->
      raises (build sign open_rasterio items bands)).
Proof.
  split.
  - intros Hsame. unfold build.
    destruct (common_names_of items bands) as [e | names]; simpl.
    + reflexivity.
    + rewrite (mapM_ext_in (item_array open_rasterio bands names)
                           (item_array open' bands names)).
      * reflexivity.
      * intros it Hit. apply signed_item_in in Hit.
        unfold item_array, open_bands.
        rewrite (mapM_ext_in
                   (fun b => bind (dict_get (assets it) b)
                                  (fun a => open_rasterio (href a)))
                   (fun b => bind (dict_get (assets it) b)
                                  (fun a => open' (href a)))).
        -- reflexivity.
        -- intros b Hb.
           destruct (dict_get (assets it) b) as [e | a] eqn:Ha; simpl.
           ++ reflexivity.
           ++ apply (Hsame it b a Hit Hb Ha).
  - intros it b a Hit Hb Ha Hfail. unfold build.
    destruct (common_names_of items bands) as [e | names]; simpl.
    + exists e. reflexivity.
    + assert (Hraise : raises (mapM (item_array open_rasterio bands names)
                                    (signed_items_of sign items))).
      { apply mapM_raises with (x := it).
        - apply signed_item_in_rev. exact Hit.
        - unfold item_array.
          assert (Hopen : raises (open_bands open_rasterio bands it)).
          { unfold open_bands. apply mapM_raises with (x := b).
            - exact Hb.
            - rewrite Ha. simpl. exact Hfail. }
          destruct Hopen as [e He]. rewrite He. exists e. reflexivity. }
      destruct Hraise as [e He]. rewrite He. exists e. reflexivity.
Qed.

(** The builder fails when no item is given: it does not return an array
    with an empty time axis. *)
Lemma build_no_items_raises (bands : list string) :
  raises (build sign open_rasterio [] bands).
Proof.
  unfold raises, build, common_names_of.
  destruct bands as [| b bands]; simpl; eexists; reflexivity.
Qed.

(** C6, as the builder has it: the time axis holds the acquisition times of
    the signed items in ascending order, one position per item, so that
    equal times stay as they are; the band axis has one label per requested
    band, in the order requested, the common name of that band in the first
    item. *)
Theorem build_axes (items : list Item) (bands : list string) (d : DataArray Plane) :
  build sign open_rasterio items bands = inr d ->
  Sorted Z.le (time d) /\
  Permutation (time d) (map datetime (map sign items)) /\
  List.length (time d) = List.length items /\
  Forall2 (fun b label => band_label items b = inr label) bands (band d).
Proof.
  intros H. apply build_inv in H.
  destruct H as [names [arrays [Hnames [_ [_ [_ [Ht [Hb _]]]]]]]].
  rewrite Ht, Hb. unfold signed_items_of. repeat split.
  - apply sorted_ascending.
  - apply Permutation_map. apply sorted_perm.
  - rewrite length_map.
    rewrite (Permutation_length (sorted_perm datetime (map sign items))).
    apply length_map.
  - apply mapM_Forall2. exact Hnames.
Qed.

(** Every position of the time axis holds the
    requested bands of exactly one item, the item at that position when the
    signed items are put in ascending order of acquisition; no item is
    dropped; and a time label resolves to the items acquired at that time,
    all of them and in the order given: none overwrites another. *)
Theorem build_one_item_per_position (items : list Item) (bands : list string)
        (d : DataArray Plane) :
  build sign open_rasterio items bands = inr d ->
  Forall2 (holds_bands_of open_rasterio bands)
          (signed_items_of sign items) (values d) /\
  Sorted Z.le (map datetime (signed_items_of sign items)) /\
  Permutation (signed_items_of sign items) (map sign items) /\
  forall t,
    Forall2 (holds_bands_of open_rasterio bands)
            (filter (fun it => datetime it =? t) (map sign items))
            (resolves_to d t).
Proof.
  intros H. apply build_inv in H.
  destruct H as [names [arrays [_ [Harrays [_ [_ [Ht [_ Hv]]]]]]]].
  apply rows_of_arrays in Harrays.
  unfold resolves_to. rewrite Ht, Hv. unfold signed_items_of.
  repeat split.
  - exact Harrays.
  - apply sorted_ascending.
  - apply sorted_perm.
  - intros t.
    rewrite <- (sorted_stable datetime t (map sign items)).
    apply sel_time_rows. exact Harrays.
Qed.

End Build.

(** Two mesoscale scenes taken at the same time, and one taken earlier. *)
Example build_three_scenes :
  build sign_token open_by_url
    [goes_item "m1-1300" 1300; goes_item "m2-1300" 1300;
     goes_item "m1-1201" 1201] ["C01_2km"; "C03_2km"]%string =
  inr {| name := "goes";
         time := [1201; 1300; 1300];
         band := ["blue"; "nir09"]%string;
         values :=
           [["https://goes/m1-1201/C01_2km.tif?sig";
             "https://goes/m1-1201/C03_2km.tif?sig"];
            ["https://goes/m1-1300/C01_2km.tif?sig";
             "https://goes/m1-1300/C03_2km.tif?sig"];
            ["https://goes/m2-1300/C01_2km.tif?sig";
             "https://goes/m2-1300/C03_2km.tif?sig"]]%string |}.
Proof. reflexivity. Qed.

Lemma build_axes_two_scenes :
  let items := [goes_item "m1-1300" 1300; goes_item "m1-1201" 1201] in
  exists d,
    build sign_token open_by_url items bands = inr d /\
    Sorted Z.le (time d) /\
    Permutation (time d) (map datetime (map sign_token items)) /\
    List.length (time d) = List.length items /\
    Forall2 (fun b label => band_label items b = inr label) bands (band d).
Proof.
  intros items. eexists. split.
  - reflexivity.
  - apply (build_axes string sign_token open_by_url). reflexivity.
Defined.

Lemma build_one_item_per_position_two_scenes :
  let items := [goes_item "m2-1302" 1302; goes_item "m1-1300" 1300] in
  exists d,
    build sign_token open_by_url items bands = inr d /\
    Forall2 (holds_bands_of open_by_url bands)
            (signed_items_of sign_token items) (values d) /\
    Sorted Z.le (map datetime (signed_items_of sign_token items)) /\
    Permutation (signed_items_of sign_token items) (map sign_token items) /\
    forall t,
      Forall2 (holds_bands_of open_by_url bands)
              (filter (fun it => datetime it =? t) (map sign_token items))
              (resolves_to d t).
Proof.
  intros items. eexists. split.
  - reflexivity.
  - apply (build_one_item_per_position string sign_token open_by_url).
    reflexivity.
Defined.

(** Two stores that differ on a URL the build does not ask for. *)
Lemma build_opens_requested_assets_two_stores :
  let items := [goes_item "m1-1300" 1300; goes_item "m1-1201" 1201] in
  build sign_token open_by_url items bands =
  build sign_token (open_unless "https://goes/m1-1300/C13_2km.tif?sig")
        items bands.
Proof.
  intros items.
  apply (proj1 (build_opens_requested_assets string sign_token open_by_url
                  (open_unless "https://goes/m1-1300/C13_2km.tif?sig")
                  items bands)).
  intros it b a Hit Hb Ha.
  simpl in Hit. destruct Hit as [<- | [<- | []]];
    simpl in Hb; destruct Hb as [<- | [<- | [<- | []]]];
    vm_compute in Ha; injection Ha as <-; reflexivity.
Defined.

(** The build asks the remote store for every
    requested asset, so it is not local: with one URL out of reach the same
    build, on the same items, raises instead of returning. *)
Lemma build_depends_on_store :
  let items := [goes_item "m1-1300" 1300; goes_item "m1-1201" 1201] in
  returns (build sign_token open_by_url items bands) /\
  build sign_token (open_unless "https://goes/m1-1300/C02_2km.tif?sig")
        items bands =
  inl (RasterioIOError "https://goes/m1-1300/C02_2km.tif?sig") /\
  ~ (forall open1 open2 : string -> result (list string),
        returns (build sign_token open1 items bands) ->
        returns (build sign_token open2 items bands)).
Proof.
  intros items. split; [| split].
  - eexists. reflexivity.
  - reflexivity.
  - intros Hlocal.
    destruct (Hlocal open_by_url
                (open_unless "https://goes/m1-1300/C02_2km.tif?sig"))
      as [d Hd].
    + eexists. reflexivity.
    + vm_compute in Hd. discriminate.
Qed.

(** Against C6 as written: with two scenes of one acquisition time the time
    axis carries that time twice, so it is neither free of duplicates nor
    strictly increasing; and the band axis carries the common names, not the
    band identifiers that were requested. *)
Lemma build_time_axis_keeps_duplicates :
  exists d,
    build sign_token open_by_url
      [goes_item "m1-1300" 1300; goes_item "m2-1300" 1300;
       goes_item "m1-1201" 1201] bands = inr d /\
    time d = [1201; 1300; 1300] /\
    ~ NoDup (time d) /\
    ~ StronglySorted Z.lt (time d) /\
    band d = ["blue"; "red"; "nir09"]%string /\
    band d <> bands.
Proof.
  eexists. split; [reflexivity |]. simpl. repeat split.
  - intros H. inversion H as [| ? ? _ H1]; subst.
    inversion H1 as [| ? ? Hin _]; subst.
    apply Hin. left. reflexivity.
  - intros H. inversion H as [| ? ? H1 _]; subst.
    inversion H1 as [| ? ? _ Hall]; subst.
    inversion Hall as [| ? ? Hlt _]; subst. lia.
  - discriminate.
Qed.

(** Two scenes acquired at the same time both stay
    in the array, the earlier in the list first; the time label resolves to
    two sources and the later scene has not overwritten the earlier. *)
Lemma build_overlap_not_overwritten :
  exists d,
    build sign_token open_by_url
      [goes_item "m1-1300" 1300; goes_item "m2-1300" 1300]
      ["C01_2km"]%string = inr d /\
    resolves_to d 1300 =
      [["https://goes/m1-1300/C01_2km.tif?sig"];
       ["https://goes/m2-1300/C01_2km.tif?sig"]]%string /\
    ~ (exists row, resolves_to d 1300 = [row]).
Proof.
  eexists. split; [reflexivity |]. split; [reflexivity |].
  intros [row H]. discriminate.
Qed.

End FlorenceFacts.

(** ** More on the array builder *)

Module FlorenceMore.
Import Florence FlorenceFacts.

Local Open Scope Z_scope.

Lemma Forall2_In_l {A B} (R : A -> B -> Prop) (l : list A) (l' : list B) (x : A) :
  Forall2 R l l' -> In x l -> exists y, In y l' /\ R x y.
Proof.
  induction 1 as [| a b l l' Hab _ IH]; intros Hin.
  - destruct Hin.
  - destruct Hin as [<- | Hin].
    + exists b. split; [left; reflexivity | exact Hab].
    + destruct (IH Hin) as [y [Hy HR]]. exists y. split; [right |]; assumption.
Qed.

Lemma Forall2_In_r {A B} (R : A -> B -> Prop) (l : list A) (l' : list B) (y : B) :
  Forall2 R l l' -> In y l' -> exists x, In x l /\ R x y.
Proof.
  induction 1 as [| a b l l' Hab _ IH]; intros Hin.
  - destruct Hin.
  - destruct Hin as [<- | Hin].
    + exists a. split; [left; reflexivity | exact Hab].
    + destruct (IH Hin) as [x [Hx HR]]. exists x. split; [right |]; assumption.
Qed.

Section Keys.

Context {A : Type} (key : A -> Z).

Lemma ascending_distinct (l : list A) :
  Sorted Z.le (map key l) -> NoDup (map key l) ->
  StronglySorted (fun x y => key x < key y) l.
Proof.
  intros Hs Hnd. apply Sorted_StronglySorted in Hs.
  2:{ intros x y z. apply Z.le_trans. }
  induction l as [| a l IH]; simpl in *.
  - constructor.
  - inversion Hs as [| ? ? Hs' Hall]; subst.
    inversion Hnd as [| ? ? Hnotin Hnd']; subst.
    constructor.
    + apply IH; assumption.
    + rewrite Forall_forall in *. intros y Hy.
      assert (Hle : key a <= key y) by (apply Hall, in_map, Hy).
      assert (Hne : key a <> key y).
      { intros Heq. apply Hnotin. rewrite Heq. apply in_map. exact Hy. }
      lia.
Qed.

(** Two lists in strictly ascending order of key that hold the same
    elements are the same list. *)
Lemma ascending_unique (l1 l2 : list A) :
  StronglySorted (fun x y => key x < key y) l1 ->
  StronglySorted (fun x y => key x < key y) l2 ->
  Permutation l1 l2 -> l1 = l2.
Proof.
  revert l2. induction l1 as [| a l1 IH]; intros l2 H1 H2 Hp.
  - apply Permutation_nil in Hp. symmetry. exact Hp.
  - destruct l2 as [| b l2].
    + apply Permutation_sym, Permutation_nil in Hp. discriminate.
    + inversion H1 as [| ? ? H1' Ha]; subst.
      inversion H2 as [| ? ? H2' Hb]; subst.
      rewrite Forall_forall in Ha, Hb.
      assert (Hab : a = b).
      { assert (Hin_a : In a (b :: l2))
          by (apply (Permutation_in a Hp); left; reflexivity).
        assert (Hin_b : In b (a :: l1))
          by (apply (Permutation_in b (Permutation_sym Hp)); left; reflexivity).
        destruct Hin_a as [-> | Hin_a]; [reflexivity |].
        destruct Hin_b as [Heq | Hin_b]; [exact Heq |].
        pose proof (Ha b Hin_b). pose proof (Hb a Hin_a). lia. }
      subst b. f_equal.
      apply IH; [assumption | assumption |].
      apply Permutation_cons_inv with a. exact Hp.
Qed.

(** With distinct keys, the order of the input does not reach the
    output. *)
Lemma sorted_of_permutation (l1 l2 : list A) :
  Permutation l1 l2 -> NoDup (map key l1) ->
  sorted key l1 = sorted key l2.
Proof.
  intros Hp Hnd.
  assert (Hnd2 : NoDup (map key l2)).
  { apply (Permutation_NoDup (Permutation_map key Hp)). exact Hnd. }
  apply ascending_unique.
  - apply ascending_distinct; [apply sorted_ascending |].
    apply (Permutation_NoDup
             (Permutation_map key (Permutation_sym (sorted_perm key l1)))).
    exact Hnd.
  - apply ascending_distinct; [apply sorted_ascending |].
    apply (Permutation_NoDup
             (Permutation_map key (Permutation_sym (sorted_perm key l2)))).
    exact Hnd2.
  - apply perm_trans with l1; [apply sorted_perm |].
    apply perm_trans with l2; [exact Hp |].
    apply Permutation_sym, sorted_perm.
Qed.

(** The head of a sorted list has the least key. *)
Lemma sorted_head_least (l : list A) (x : A) (rest : list A) :
  sorted key l = x :: rest ->
  In x l /\ forall y, In y l -> key x <= key y.
Proof.
  intros Hs. split.
  - apply (Permutation_in x (sorted_perm key l)). rewrite Hs. left. reflexivity.
  - intros y Hy.
    apply (Permutation_in y (Permutation_sym (sorted_perm key l))) in Hy.
    pose proof (sorted_ascending key l) as Hasc.
    rewrite Hs in Hasc, Hy. simpl in Hasc.
    apply Sorted_StronglySorted in Hasc.
    2:{ intros a b c. apply Z.le_trans. }
    inversion Hasc as [| ? ? _ Hall]; subst.
    destruct Hy as [<- | Hy]; [lia |].
    rewrite Forall_forall in Hall. apply Hall, in_map, Hy.
Qed.

End Keys.

Section Build.

Variable Plane : Type.
Variable sign : Item -> Item.
Variable open_rasterio : string -> result (list Plane).

Lemma item_array_shape (bands names : list string) (it : Item)
      (a : BandArray Plane) :
  item_array open_rasterio bands names it = inr a ->
  bands <> [] /\
  List.length (ba_planes a) = List.length names.
Proof.
  unfold item_array. intros H.
  apply bind_inr in H. destruct H as [rasters [Hopen H]].
  apply bind_inr in H. destruct H as [planes [Hcat H]].
  unfold assign_coords_band in H.
  destruct (Nat.eqb_spec (List.length names) (List.length planes)) as [Hlen |];
    [| discriminate].
  injection H as <-. simpl. split; [| symmetry; exact Hlen].
  apply mapM_length in Hopen.
  destruct rasters; simpl in Hcat; [discriminate |].
  destruct bands; [discriminate | discriminate].
Qed.

(** X1: the array the builder returns is a full rectangle and is not empty:
    there is an item and a band, the time axis has one label per item and
    per row of values, the band axis has one label per requested band, and
    every row has one plane per band label. *)
Theorem build_rectangular (items : list Item) (bands : list string)
        (d : DataArray Plane) :
  build sign open_rasterio items bands = inr d ->
  items <> [] /\ bands <> [] /\
  List.length (time d) = List.length items /\
  List.length (values d) = List.length items /\
  List.length (band d) = List.length bands /\
  Forall (fun row => List.length row = List.length (band d)) (values d).
Proof.
  intros H. apply build_inv in H.
  destruct H as [names [arrays [Hnames [Harrays [Hne [_ [Ht [Hb Hv]]]]]]]].
  pose proof (mapM_length _ _ _ Harrays) as Hlen.
  assert (Hsigned : List.length (signed_items_of sign items) = List.length items).
  { unfold signed_items_of.
    rewrite (Permutation_length (sorted_perm datetime (map sign items))).
    apply length_map. }
  apply mapM_Forall2 in Harrays.
  rewrite Ht, Hb, Hv, !length_map, Hsigned.
  repeat split.
  - intros ->. destruct arrays; [contradiction | discriminate].
  - destruct arrays as [| a arrays]; [contradiction |].
    inversion Harrays as [| it ? its ? Ha _]; subst.
    apply item_array_shape in Ha. apply Ha.
  - congruence.
  - apply (mapM_length _ _ _ Hnames).
  - rewrite Forall_forall. intros row Hrow.
    apply in_map_iff in Hrow. destruct Hrow as [a [<- Ha]].
    destruct (Forall2_In_r _ _ _ a Harrays Ha) as [it [_ Hit]].
    apply item_array_shape in Hit. apply Hit.
Qed.

(** X2: the builder returns only when nothing is missing: every signed item
    has every requested band among its assets, and every one of these
    assets opened.  An item that lacks a band makes the build raise. *)
Theorem build_needs_every_asset (items : list Item) (bands : list string)
        (d : DataArray Plane) :
  build sign open_rasterio items bands = inr d ->
  forall it b, In it (map sign items) -> In b bands ->
    exists a planes,
      dict_get (assets it) b = inr a /\
      open_rasterio (href a) = inr planes.
Proof.
  intros H it b Hit Hb. apply build_inv in H.
  destruct H as [names [arrays [_ [Harrays _]]]].
  apply mapM_Forall2 in Harrays.
  apply signed_item_in_rev in Hit.
  destruct (Forall2_In_l _ _ _ it Harrays Hit) as [a [_ Ha]].
  unfold item_array in Ha.
  apply bind_inr in Ha. destruct Ha as [rasters [Hopen _]].
  unfold open_bands in Hopen. apply mapM_Forall2 in Hopen.
  destruct (Forall2_In_l _ _ _ b Hopen Hb) as [planes [_ Hplanes]].
  apply bind_inr in Hplanes. destruct Hplanes as [asset [Hget Hopened]].
  exists asset, planes. split; assumption.
Qed.

(** X3: with nothing to stack the builder raises, it does not return an empty
    array: without a band, [xr.concat] is given an empty list, whatever the
    items; with a band and no item, [items[0]] is out of range. *)
Theorem build_nothing_to_stack :
  (forall items,
      build sign open_rasterio items [] =
      inl (ValueError "must supply at least one object to concatenate")) /\
  (forall b bands,
      build sign open_rasterio [] (b :: bands) =
      inl (IndexError "list index out of range")).
Proof.
  split.
  - intros items. unfold build, common_names_of. simpl.
    destruct (signed_items_of sign items) as [| it its]; reflexivity.
  - intros b bands. reflexivity.
Qed.

(** X4: when no two items share an acquisition time, the order in which the
    search returned them does not matter: two orders of the same items give
    the same outcome, as long as they name the bands alike (the names are
    read off the first item). *)
Theorem build_order_independent (items items' : list Item) (bands : list string) :
  Permutation items items' ->
  NoDup (map datetime (map sign items)) ->
  common_names_of items bands = common_names_of items' bands ->
  build sign open_rasterio items bands = build sign open_rasterio items' bands.
Proof.
  intros Hp Hnd Hnames. unfold build, signed_items_of.
  rewrite Hnames.
  rewrite (sorted_of_permutation datetime (map sign items) (map sign items')).
  - reflexivity.
  - apply Permutation_map. exact Hp.
  - exact Hnd.
Qed.

(** X6: the raster the notebook looks at first is the first requested band of
    an earliest scene: no item was acquired before it. *)
Theorem preview_is_earliest (items : list Item) (planes : list Plane) :
  preview sign open_rasterio items = inr planes ->
  exists it a,
    In it (map sign items) /\
    (forall it', In it' (map sign items) -> datetime it <= datetime it') /\
    dict_get (assets it) "C01_2km" = inr a /\
    open_rasterio (href a) = inr planes.
Proof.
  unfold preview. intros H.
  apply bind_inr in H. destruct H as [it [Hfirst H]].
  apply bind_inr in H. destruct H as [a [Hget Hopen]].
  exists it, a.
  unfold signed_items_of in Hfirst.
  destruct (sorted datetime (map sign items)) as [| x rest] eqn:Hs;
    simpl in Hfirst; [discriminate |].
  injection Hfirst as ->.
  destruct (sorted_head_least datetime _ _ _ Hs) as [Hin Hleast].
  repeat split; assumption.
Qed.

End Build.

(** The three scenes of [build_three_scenes], in another order. *)
Lemma build_order_independent_three_scenes :
  let items := [goes_item "m1-1300" 1300; goes_item "m2-1302" 1302;
                goes_item "m1-1201" 1201] in
  let items' := [goes_item "m1-1201" 1201; goes_item "m1-1300" 1300;
                 goes_item "m2-1302" 1302] in
  build sign_token open_by_url items bands =
  build sign_token open_by_url items' bands.
Proof.
  intros items items'.
  apply (build_order_independent string sign_token open_by_url).
  - unfold items, items'.
    apply perm_trans with
      [goes_item "m1-1300" 1300; goes_item "m1-1201" 1201;
       goes_item "m2-1302" 1302].
    + apply perm_skip. apply perm_swap.
    + apply perm_swap.
  - simpl. repeat constructor; simpl; intuition discriminate.
  - reflexivity.
Defined.

Lemma build_rectangular_two_scenes :
  let items := [goes_item "m1-1300" 1300; goes_item "m1-1201" 1201] in
  exists d,
    build sign_token open_by_url items bands = inr d /\
    items <> [] /\ bands <> [] /\
    List.length (time d) = List.length items /\
    List.length (values d) = List.length items /\
    List.length (band d) = List.length bands /\
    Forall (fun row => List.length row = List.length (band d)) (values d).
Proof.
  intros items. eexists. split.
  - reflexivity.
  - apply (build_rectangular string sign_token open_by_url). reflexivity.
Defined.

Lemma build_needs_every_asset_two_scenes :
  let items := [goes_item "m1-1300" 1300; goes_item "m1-1201" 1201] in
  exists a planes,
    dict_get (assets (sign_token (goes_item "m1-1201" 1201))) "C02_2km"
      = inr a /\
    open_by_url (href a) = inr planes.
Proof.
  intros items.
  apply (build_needs_every_asset string sign_token open_by_url items bands
           _ eq_refl).
  - simpl. right. left. reflexivity.
  - simpl. right. left. reflexivity.
Defined.

Lemma preview_is_earliest_two_scenes :
  let items := [goes_item "m1-1300" 1300; goes_item "m1-1201" 1201] in
  exists it a,
    In it (map sign_token items) /\
    (forall it', In it' (map sign_token items) -> datetime it <= datetime it') /\
    dict_get (assets it) "C01_2km" = inr a /\
    open_by_url (href a) = inr ["https://goes/m1-1201/C01_2km.tif?sig"%string].
Proof.
  intros items.
  apply (preview_is_earliest string sign_token open_by_url items).
  reflexivity.
Defined.

End FlorenceMore.

(** ** Rounding to binary64 keeps the order *)

Module FloatFacts.
Import Gateway GatewayFacts.

Local Open Scope Q_scope.

Lemma round_half_even_comp (x y : Q) :
  x == y -> round_half_even x = round_half_even y.
Proof.
  intros H. unfold round_half_even.
  rewrite (Qfloor_comp x y H).
  assert (Hc : Qcompare (x - inject_Z (Qfloor y)) (1 # 2) =
               Qcompare (y - inject_Z (Qfloor y)) (1 # 2)).
  { apply Qcompare_comp; [rewrite H; reflexivity | reflexivity]. }
  rewrite Hc. reflexivity.
Qed.

Lemma round_half_even_inject (n : Z) : round_half_even (inject_Z n) = n.
Proof.
  unfold round_half_even. rewrite Qfloor_Z.
  destruct (Qcompare_spec (inject_Z n - inject_Z n) (1 # 2)) as [H | H | H].
  - exfalso. lra.
  - reflexivity.
  - exfalso. lra.
Qed.

Lemma round_half_even_mono (x y : Q) :
  x <= y -> (round_half_even x <= round_half_even y)%Z.
Proof.
  intros Hxy.
  pose proof (Qfloor_resp_le x y Hxy) as Hfl.
  unfold round_half_even.
  destruct (Z.eq_dec (Qfloor x) (Qfloor y)) as [Heq | Hne].
  - rewrite Heq.
    destruct (Qcompare_spec (x - inject_Z (Qfloor y)) (1 # 2)) as [Hx | Hx | Hx];
      destruct (Qcompare_spec (y - inject_Z (Qfloor y)) (1 # 2)) as [Hy | Hy | Hy];
      try (destruct (Z.even (Qfloor y))); try lia; exfalso; lra.
  - assert (Hlt : (Qfloor x + 1 <= Qfloor y)%Z) by lia.
    destruct (Qcompare (x - inject_Z (Qfloor x)) (1 # 2));
      destruct (Qcompare (y - inject_Z (Qfloor y)) (1 # 2));
      try (destruct (Z.even (Qfloor x))); try (destruct (Z.even (Qfloor y)));
      lia.
Qed.

Lemma pow2_le (a b : Z) : (a <= b)%Z -> pow2 a <= pow2 b.
Proof. intros H. apply Qpower_le_compat_l; [exact H | discriminate]. Qed.

Lemma pow2_le_inv (a b : Z) : pow2 a <= pow2 b -> (a <= b)%Z.
Proof. intros H. apply (Qpower_le_compat_l_inv 2); [exact H | reflexivity]. Qed.

Lemma pow2_lt_inv (a b : Z) : pow2 a < pow2 b -> (a < b)%Z.
Proof. intros H. apply (Qpower_lt_compat_l_inv 2); [exact H | reflexivity]. Qed.

(** The binade of a number is the only one that holds it. *)
Lemma ilog2_unique (x : Q) (k : Z) :
  pow2 k <= x -> x < pow2 (k + 1) -> ilog2 x = k.
Proof.
  intros Hlo Hhi.
  assert (Hx : 0 < x) by (apply Qlt_le_trans with (pow2 k); [apply pow2_pos | exact Hlo]).
  destruct (ilog2_spec x Hx) as [Hlo' Hhi'].
  assert (H1 : (k < ilog2 x + 1)%Z).
  { apply pow2_lt_inv. apply Qle_lt_trans with x; assumption. }
  assert (H2 : (ilog2 x < k + 1)%Z).
  { apply pow2_lt_inv. apply Qle_lt_trans with x; assumption. }
  lia.
Qed.

Lemma ilog2_comp (x y : Q) : 0 < x -> x == y -> ilog2 x = ilog2 y.
Proof.
  intros Hx Hxy.
  assert (Hy : 0 < y) by (rewrite <- Hxy; exact Hx).
  destruct (ilog2_spec y Hy) as [Hlo Hhi].
  apply ilog2_unique; rewrite Hxy; assumption.
Qed.

Lemma ilog2_mono (x y : Q) : 0 < x -> x <= y -> (ilog2 x <= ilog2 y)%Z.
Proof.
  intros Hx Hxy.
  assert (Hy : 0 < y) by (apply Qlt_le_trans with x; assumption).
  destruct (ilog2_spec x Hx) as [Hlo _].
  destruct (ilog2_spec y Hy) as [_ Hhi].
  assert (H : (ilog2 x < ilog2 y + 1)%Z).
  { apply pow2_lt_inv. apply Qle_lt_trans with x; [exact Hlo |].
    apply Qle_lt_trans with y; assumption. }
  lia.
Qed.

(** The rounding of a positive number, written out. *)
Lemma binary64_pos_eq (x : Q) :
  0 < x ->
  binary64 x =
  inject_Z (round_half_even (x / pow2 (ilog2 x - 52))) * pow2 (ilog2 x - 52).
Proof.
  intros Hx. unfold binary64, round_to.
  destruct (Qcompare_spec x 0) as [H | H | H].
  - exfalso. rewrite H in Hx. apply (Qlt_irrefl 0 Hx).
  - exfalso. apply (Qlt_irrefl 0). apply Qlt_trans with x; assumption.
  - reflexivity.
Qed.

Lemma scaled_le (x : Q) (e k : Z) :
  x <= pow2 k -> x / pow2 e <= pow2 (k - e).
Proof.
  intros H. apply Qle_shift_div_r; [apply pow2_pos |].
  rewrite <- (pow2_add (k - e) e). replace (k - e + e)%Z with k by lia. exact H.
Qed.

Lemma scaled_ge (x : Q) (e k : Z) :
  pow2 k <= x -> pow2 (k - e) <= x / pow2 e.
Proof.
  intros H. apply Qle_shift_div_l; [apply pow2_pos |].
  rewrite <- (pow2_add (k - e) e). replace (k - e + e)%Z with k by lia. exact H.
Qed.

(** Rounding does not cross a power of two. *)
Lemma binary64_ge_pow2 (x : Q) (k : Z) :
  pow2 k <= x -> pow2 k <= binary64 x.
Proof.
  intros Hk.
  assert (Hx : 0 < x) by (apply Qlt_le_trans with (pow2 k); [apply pow2_pos | exact Hk]).
  rewrite (binary64_pos_eq x Hx).
  destruct (ilog2_spec x Hx) as [Hlo Hhi].
  set (L := ilog2 x) in *. set (e := (L - 52)%Z).
  assert (HkL : (k <= L)%Z).
  { assert (k < L + 1)%Z; [| lia].
    apply pow2_lt_inv. apply Qle_lt_trans with x; assumption. }
  apply Qle_trans with (pow2 L); [apply pow2_le; exact HkL |].
  assert (Hr : (2 ^ 52 <= round_half_even (x / pow2 e))%Z).
  { rewrite <- (round_half_even_inject (2 ^ 52)).
    apply round_half_even_mono.
    rewrite pow2_inject by lia.
    replace 52%Z with (L - e)%Z by (unfold e; lia).
    apply scaled_ge. exact Hlo. }
  rewrite Zle_Qle in Hr. rewrite pow2_inject in Hr by lia.
  replace L with (52 + e)%Z at 1 by (unfold e; lia).
  rewrite (pow2_add 52 e).
  apply Qmult_le_compat_r; [exact Hr | apply Qlt_le_weak, pow2_pos].
Qed.

Lemma binary64_le_pow2 (x : Q) (k : Z) :
  0 < x -> x <= pow2 k -> binary64 x <= pow2 k.
Proof.
  intros Hx Hk.
  rewrite (binary64_pos_eq x Hx).
  destruct (ilog2_spec x Hx) as [Hlo Hhi].
  set (L := ilog2 x) in *. set (e := (L - 52)%Z).
  assert (HLk : (L <= k)%Z).
  { apply pow2_le_inv. apply Qle_trans with x; assumption. }
  assert (Hr : (round_half_even (x / pow2 e) <= 2 ^ (k - e))%Z).
  { rewrite <- (round_half_even_inject (2 ^ (k - e))).
    apply round_half_even_mono.
    rewrite pow2_inject by (unfold e; lia).
    apply scaled_le. exact Hk. }
  rewrite Zle_Qle in Hr. rewrite pow2_inject in Hr by (unfold e; lia).
  apply Qle_trans with (pow2 (k - e) * pow2 e).
  - apply Qmult_le_compat_r; [exact Hr | apply Qlt_le_weak, pow2_pos].
  - rewrite <- (pow2_add (k - e) e).
    replace (k - e + e)%Z with k by lia. apply Qle_refl.
Qed.

Lemma binary64_pos (x : Q) : 0 < x -> 0 < binary64 x.
Proof.
  intros Hx. destruct (ilog2_spec x Hx) as [Hlo _].
  apply Qlt_le_trans with (pow2 (ilog2 x)); [apply pow2_pos |].
  apply binary64_ge_pow2. exact Hlo.
Qed.

Lemma binary64_mono_pos (x y : Q) :
  0 < x -> x <= y -> binary64 x <= binary64 y.
Proof.
  intros Hx Hxy.
  assert (Hy : 0 < y) by (apply Qlt_le_trans with x; assumption).
  pose proof (ilog2_mono x y Hx Hxy) as HL.
  destruct (ilog2_spec x Hx) as [Hxlo Hxhi].
  destruct (ilog2_spec y Hy) as [Hylo Hyhi].
  destruct (Z.eq_dec (ilog2 x) (ilog2 y)) as [Heq | Hne].
  - rewrite (binary64_pos_eq x Hx), (binary64_pos_eq y Hy), Heq.
    apply Qmult_le_compat_r; [| apply Qlt_le_weak, pow2_pos].
    rewrite <- Zle_Qle. apply round_half_even_mono.
    apply Qmult_le_compat_r; [exact Hxy |].
    apply Qlt_le_weak, Qinv_lt_0_compat, pow2_pos.
  - apply Qle_trans with (pow2 (ilog2 x + 1)).
    + apply binary64_le_pow2; [exact Hx | apply Qlt_le_weak; exact Hxhi].
    + apply Qle_trans with (pow2 (ilog2 y)).
      * apply pow2_le. lia.
      * apply binary64_ge_pow2. exact Hylo.
Qed.

Lemma binary64_zero (x : Q) : x == 0 -> binary64 x = 0.
Proof.
  intros H. unfold binary64, round_to.
  destruct (Qcompare_spec x 0) as [H0 | H0 | H0].
  - reflexivity.
  - exfalso. rewrite H in H0. apply (Qlt_irrefl 0 H0).
  - exfalso. rewrite H in H0. apply (Qlt_irrefl 0 H0).
Qed.

Lemma binary64_neg_eq (x : Q) : x < 0 -> binary64 x = - binary64 (- x).
Proof.
  intros Hx.
  assert (Hpos : 0 < - x) by lra.
  rewrite (binary64_pos_eq (- x) Hpos).
  unfold binary64, round_to.
  destruct (Qcompare_spec x 0) as [H0 | H0 | H0].
  - exfalso. rewrite H0 in Hx. apply (Qlt_irrefl 0 Hx).
  - reflexivity.
  - exfalso. apply (Qlt_irrefl 0). apply Qlt_trans with x; assumption.
Qed.

Lemma binary64_comp_pos (x y : Q) :
  0 < x -> x == y -> binary64 x == binary64 y.
Proof.
  intros Hx Hxy.
  assert (Hy : 0 < y) by (rewrite <- Hxy; exact Hx).
  rewrite (binary64_pos_eq x Hx), (binary64_pos_eq y Hy).
  rewrite (ilog2_comp x y Hx Hxy).
  rewrite (round_half_even_comp (x / pow2 (ilog2 y - 52))
                                (y / pow2 (ilog2 y - 52))).
  - reflexivity.
  - rewrite Hxy. reflexivity.
Qed.

Lemma binary64_comp (x y : Q) : x == y -> binary64 x == binary64 y.
Proof.
  intros Hxy.
  destruct (Qlt_le_dec 0 x) as [Hpos | Hle].
  - apply binary64_comp_pos; assumption.
  - destruct (Qlt_le_dec x 0) as [Hneg | Hge].
    + assert (Hy : y < 0) by (rewrite <- Hxy; exact Hneg).
      rewrite (binary64_neg_eq x Hneg), (binary64_neg_eq y Hy).
      apply Qopp_comp. apply binary64_comp_pos; [lra |].
      rewrite Hxy. reflexivity.
    + assert (Hx0 : x == 0) by (apply Qle_antisym; assumption).
      assert (Hy0 : y == 0) by (rewrite <- Hxy; exact Hx0).
      rewrite (binary64_zero x Hx0), (binary64_zero y Hy0). reflexivity.
Qed.

Lemma binary64_opp (x : Q) : binary64 (- x) == - binary64 x.
Proof.
  destruct (Qlt_le_dec 0 x) as [Hpos | Hle].
  - assert (Hneg : - x < 0) by lra.
    rewrite (binary64_neg_eq (- x) Hneg).
    apply Qopp_comp. apply binary64_comp. apply Qopp_opp.
  - destruct (Qlt_le_dec x 0) as [Hneg | Hge].
    + rewrite (binary64_neg_eq x Hneg). rewrite Qopp_opp. reflexivity.
    + assert (Hx0 : x == 0) by (apply Qle_antisym; assumption).
      assert (Hx0' : - x == 0) by (rewrite Hx0; reflexivity).
      rewrite (binary64_zero x Hx0), (binary64_zero (- x) Hx0'). reflexivity.
Qed.

Lemma binary64_nonpos (x : Q) : x <= 0 -> binary64 x <= 0.
Proof.
  intros Hx. destruct (Qlt_le_dec x 0) as [Hneg | Hge].
  - rewrite (binary64_neg_eq x Hneg).
    assert (0 < binary64 (- x)) by (apply binary64_pos; lra). lra.
  - rewrite (binary64_zero x); [apply Qle_refl | apply Qle_antisym; assumption].
Qed.

(** Rounding keeps the order. *)
Lemma binary64_mono (x y : Q) : x <= y -> binary64 x <= binary64 y.
Proof.
  intros Hxy.
  destruct (Qlt_le_dec 0 x) as [Hx | Hx].
  - apply binary64_mono_pos; assumption.
  - destruct (Qlt_le_dec 0 y) as [Hy | Hy].
    + apply Qle_trans with 0; [apply binary64_nonpos; exact Hx |].
      apply Qlt_le_weak, binary64_pos. exact Hy.
    + destruct (Qlt_le_dec y 0) as [Hyneg | Hyge].
      * assert (Hxneg : x < 0) by lra.
        rewrite (binary64_neg_eq x Hxneg), (binary64_neg_eq y Hyneg).
        apply Qopp_le_compat. apply binary64_mono_pos; lra.
      * rewrite (binary64_zero y); [| apply Qle_antisym; assumption].
        apply binary64_nonpos. exact Hx.
Qed.

Lemma binary64_one : binary64 1 == 1.
Proof. vm_compute. reflexivity. Qed.


(** binary64 is a rounding in the sense above. *)
Lemma binary64_rounding : Float.Rounding binary64.
Proof.
  constructor.
  - exact binary64_comp.
  - exact binary64_mono.
  - exact binary64_opp.
  - exact binary64_one.
  - exact binary64_pos.
Qed.

End FloatFacts.

(** ** More on the option handler *)

Module GatewayMore.
Import Gateway GatewayFacts Float.

Local Open Scope Q_scope.

Section Ordered.

Variable rnd : Q -> Q.
Hypothesis rounding : Rounding rnd.

Lemma rnd_zero : rnd 0 == 0.
Proof.
  pose proof (rnd_opp rnd rounding 0) as H.
  change (- 0) with 0 in H. lra.
Qed.

Lemma rnd_nonneg_ordered (x : Q) : 0 <= x -> 0 <= rnd x.
Proof.
  intros Hx. rewrite <- rnd_zero. apply (rnd_mono rnd rounding). exact Hx.
Qed.

(** X7: asking for more cores never lowers the CPU request. *)
Theorem cores_request_monotone (o o' : options) :
  worker_cores o <= worker_cores o' ->
  cores_request rnd o <= cores_request rnd o'.
Proof.
  intros Hc. unfold cores_request, fmul, fdiv, literal.
  apply (rnd_mono rnd rounding).
  rewrite !(Qmult_comm (rnd (88 # 100))).
  apply Qmult_le_compat_r.
  - apply Q.min_le_compat_r. apply (rnd_mono rnd rounding).
    unfold Qdiv. apply Qmult_le_compat_r; [exact Hc | discriminate].
  - apply rnd_nonneg_ordered. discriminate.
Qed.

(** X8: from two cores on the CPU request no longer grows: it is the float
    next to 0.88, whatever the number of cores. *)
Theorem cores_request_saturates (o : options) :
  2 <= worker_cores o ->
  cores_request rnd o == rnd (rnd (88 # 100)).
Proof.
  intros Hc. unfold cores_request, fmul, fdiv, literal.
  apply (rnd_comp rnd rounding).
  assert (Hhalf : 1 <= rnd (worker_cores o / 2)).
  { rewrite <- (rnd_one rnd rounding). apply (rnd_mono rnd rounding).
    apply Qle_shift_div_l; [reflexivity | lra]. }
  rewrite (Q.min_r _ _ Hhalf). ring.
Qed.

End Ordered.

Section Relative.

Variable rnd : Q -> Q.
Variable eps : Q.
Hypothesis eps_small : 0 <= eps /\ eps <= 1 # 100.
Hypothesis rnd_near :
  forall x, 0 <= x -> (1 - eps) * x <= rnd x /\ rnd x <= (1 + eps) * x.

Lemma rnd_ge (x : Q) : 0 <= x -> (99 # 100) * x <= rnd x.
Proof.
  intros Hx. destruct (rnd_near x Hx) as [Hlo _].
  assert (eps * x <= (1 # 100) * x) by (apply Qmult_le_compat_r; lra).
  lra.
Qed.

(** X9: the memory request is between 88 and 92 hundredths of the memory the
    worker is limited to. *)
Theorem memory_request_range (o : options) :
  in_range worker_memory_field (worker_memory o) ->
  (88 # 100) * worker_memory o <= memory_request rnd o /\
  memory_request rnd o <= (92 # 100) * worker_memory o.
Proof.
  intros [Hm8 _]. simpl in Hm8.
  assert (Hm : 0 <= worker_memory o) by lra.
  split; [| apply (memory_request_le rnd eps eps_small rnd_near); exact Hm].
  unfold memory_request, fmul, literal.
  set (a := rnd (9 # 10)).
  assert (Ha0 : 0 <= a) by (apply (rnd_nonneg rnd eps eps_small rnd_near); lra).
  assert (Ha1 : (99 # 100) * (9 # 10) <= a) by (apply rnd_ge; lra).
  assert (Hp0 : 0 <= a * worker_memory o)
    by (apply Qmult_le_0_compat; assumption).
  assert (Hp1 : (99 # 100) * (9 # 10) * worker_memory o <= a * worker_memory o)
    by (apply Qmult_le_compat_r; assumption).
  pose proof (rnd_ge _ Hp0) as Hr.
  lra.
Qed.

End Relative.

Lemma cores_request_monotone_binary64 :
  let o := {| worker_cores := 3 # 2; worker_memory := 8;
              image := "pangeo/pangeo-notebook:latest"; environment := [] |} in
  let o' := {| worker_cores := 16; worker_memory := 8;
               image := "pangeo/pangeo-notebook:latest"; environment := [] |} in
  cores_request binary64 o <= cores_request binary64 o'.
Proof.
  intros o o'.
  apply (cores_request_monotone binary64 FloatFacts.binary64_rounding).
  discriminate.
Defined.

(** In binary64 the request of a worker of 16 cores is the float next to
    0.88. *)
Lemma cores_request_saturates_binary64 :
  let o := {| worker_cores := 16; worker_memory := 128;
              image := "pangeo/pangeo-notebook:latest"; environment := [] |} in
  cores_request binary64 o == 7926335344172073 # 9007199254740992.
Proof.
  intros o.
  rewrite (cores_request_saturates binary64 FloatFacts.binary64_rounding o).
  - vm_compute. reflexivity.
  - discriminate.
Defined.

Lemma memory_request_range_binary64 :
  let o := {| worker_cores := 1; worker_memory := 8;
              image := "pangeo/pangeo-notebook:latest"; environment := [] |} in
  (88 # 100) * worker_memory o <= memory_request binary64 o /\
  memory_request binary64 o <= (92 # 100) * worker_memory o.
Proof.
  intros o.
  apply (memory_request_range binary64 eps64).
  - split; discriminate.
  - exact binary64_near.
  - split; discriminate.
Defined.

End GatewayMore.

(** ** Rounding to a binary64 with its subnormal numbers *)

Module DoubleFacts.
Import Gateway GatewayFacts Float FloatFacts.

Local Open Scope Q_scope.

(** The rounding of a positive number, written out. *)
Lemma double_pos_eq (x : Q) :
  0 < x ->
  double x =
  inject_Z (round_half_even (x / pow2 (Z.max (ilog2 x - 52) emin)))
  * pow2 (Z.max (ilog2 x - 52) emin).
Proof.
  intros Hx. unfold double.
  destruct (Qcompare_spec x 0) as [H | H | H].
  - exfalso. rewrite H in Hx. apply (Qlt_irrefl 0 Hx).
  - exfalso. apply (Qlt_irrefl 0). apply Qlt_trans with x; assumption.
  - reflexivity.
Qed.

Lemma double_zero (x : Q) : x == 0 -> double x = 0.
Proof.
  intros H. unfold double.
  destruct (Qcompare_spec x 0) as [H0 | H0 | H0].
  - reflexivity.
  - exfalso. rewrite H in H0. apply (Qlt_irrefl 0 H0).
  - exfalso. rewrite H in H0. apply (Qlt_irrefl 0 H0).
Qed.

Lemma double_neg_eq (x : Q) : x < 0 -> double x = - double (- x).
Proof.
  intros Hx.
  assert (Hpos : 0 < - x) by lra.
  rewrite (double_pos_eq (- x) Hpos).
  unfold double.
  destruct (Qcompare_spec x 0) as [H0 | H0 | H0].
  - exfalso. rewrite H0 in Hx. apply (Qlt_irrefl 0 Hx).
  - reflexivity.
  - exfalso. apply (Qlt_irrefl 0). apply Qlt_trans with x; assumption.
Qed.

Lemma double_comp_pos (x y : Q) :
  0 < x -> x == y -> double x == double y.
Proof.
  intros Hx Hxy.
  assert (Hy : 0 < y) by (rewrite <- Hxy; exact Hx).
  rewrite (double_pos_eq x Hx), (double_pos_eq y Hy).
  rewrite (ilog2_comp x y Hx Hxy).
  set (e := Z.max (ilog2 y - 52) emin).
  rewrite (round_half_even_comp (x / pow2 e) (y / pow2 e)).
  - reflexivity.
  - rewrite Hxy. reflexivity.
Qed.

Lemma double_comp (x y : Q) : x == y -> double x == double y.
Proof.
  intros Hxy.
  destruct (Qlt_le_dec 0 x) as [Hpos | Hle].
  - apply double_comp_pos; assumption.
  - destruct (Qlt_le_dec x 0) as [Hneg | Hge].
    + assert (Hy : y < 0) by (rewrite <- Hxy; exact Hneg).
      rewrite (double_neg_eq x Hneg), (double_neg_eq y Hy).
      apply Qopp_comp. apply double_comp_pos; [lra |].
      rewrite Hxy. reflexivity.
    + assert (Hx0 : x == 0) by (apply Qle_antisym; assumption).
      assert (Hy0 : y == 0) by (rewrite <- Hxy; exact Hx0).
      rewrite (double_zero x Hx0), (double_zero y Hy0). reflexivity.
Qed.

Lemma double_opp (x : Q) : double (- x) == - double x.
Proof.
  destruct (Qlt_le_dec 0 x) as [Hpos | Hle].
  - assert (Hneg : - x < 0) by lra.
    rewrite (double_neg_eq (- x) Hneg).
    apply Qopp_comp. apply double_comp. apply Qopp_opp.
  - destruct (Qlt_le_dec x 0) as [Hneg | Hge].
    + rewrite (double_neg_eq x Hneg). rewrite Qopp_opp. reflexivity.
    + assert (Hx0 : x == 0) by (apply Qle_antisym; assumption).
      assert (Hx0' : - x == 0) by (rewrite Hx0; reflexivity).
      rewrite (double_zero x Hx0), (double_zero (- x) Hx0'). reflexivity.
Qed.

Lemma double_nonneg (x : Q) : 0 <= x -> 0 <= double x.
Proof.
  intros Hx. destruct (Qlt_le_dec 0 x) as [Hpos | Hle].
  - rewrite (double_pos_eq x Hpos).
    set (e := Z.max (ilog2 x - 52) emin).
    apply Qmult_le_0_compat; [| apply Qlt_le_weak, pow2_pos].
    change 0 with (inject_Z 0). rewrite <- Zle_Qle.
    rewrite <- (round_half_even_inject 0).
    apply round_half_even_mono.
    apply Qle_shift_div_l; [apply pow2_pos |].
    change (inject_Z 0) with 0. lra.
  - rewrite (double_zero x); [apply Qle_refl | apply Qle_antisym; assumption].
Qed.

Lemma double_le_pow2 (x : Q) (k : Z) :
  0 < x -> x <= pow2 k -> (Z.max (ilog2 x - 52) emin <= k)%Z ->
  double x <= pow2 k.
Proof.
  intros Hx Hk He.
  rewrite (double_pos_eq x Hx).
  set (e := Z.max (ilog2 x - 52) emin) in *.
  assert (Hr : (round_half_even (x / pow2 e) <= 2 ^ (k - e))%Z).
  { rewrite <- (round_half_even_inject (2 ^ (k - e))).
    apply round_half_even_mono.
    rewrite pow2_inject by lia.
    apply scaled_le. exact Hk. }
  rewrite Zle_Qle in Hr. rewrite pow2_inject in Hr by lia.
  apply Qle_trans with (pow2 (k - e) * pow2 e).
  - apply Qmult_le_compat_r; [exact Hr | apply Qlt_le_weak, pow2_pos].
  - rewrite <- (pow2_add (k - e) e).
    replace (k - e + e)%Z with k by lia. apply Qle_refl.
Qed.

Lemma double_ge_pow2 (x : Q) :
  0 < x -> (emin <= ilog2 x - 52)%Z -> pow2 (ilog2 x) <= double x.
Proof.
  intros Hx He.
  rewrite (double_pos_eq x Hx).
  destruct (ilog2_spec x Hx) as [Hlo Hhi].
  replace (Z.max (ilog2 x - 52) emin) with (ilog2 x - 52)%Z by lia.
  set (L := ilog2 x) in *. set (e := (L - 52)%Z).
  assert (Hr : (2 ^ 52 <= round_half_even (x / pow2 e))%Z).
  { rewrite <- (round_half_even_inject (2 ^ 52)).
    apply round_half_even_mono.
    rewrite pow2_inject by lia.
    replace 52%Z with (L - e)%Z by (unfold e; lia).
    apply scaled_ge. exact Hlo. }
  rewrite Zle_Qle in Hr. rewrite pow2_inject in Hr by lia.
  apply Qle_trans with (pow2 52 * pow2 e).
  - rewrite <- (pow2_add 52 e).
    replace (52 + e)%Z with L by (unfold e; lia). apply Qle_refl.
  - apply Qmult_le_compat_r; [exact Hr | apply Qlt_le_weak, pow2_pos].
Qed.

Lemma double_mono_pos (x y : Q) :
  0 < x -> x <= y -> double x <= double y.
Proof.
  intros Hx Hxy.
  assert (Hy : 0 < y) by (apply Qlt_le_trans with x; assumption).
  pose proof (ilog2_mono x y Hx Hxy) as HL.
  destruct (ilog2_spec x Hx) as [Hxlo Hxhi].
  destruct (ilog2_spec y Hy) as [Hylo Hyhi].
  destruct (Z.eq_dec (Z.max (ilog2 x - 52) emin) (Z.max (ilog2 y - 52) emin))
    as [Heq | Hne].
  - rewrite (double_pos_eq x Hx), (double_pos_eq y Hy), Heq.
    apply Qmult_le_compat_r; [| apply Qlt_le_weak, pow2_pos].
    rewrite <- Zle_Qle. apply round_half_even_mono.
    apply Qmult_le_compat_r; [exact Hxy |].
    apply Qlt_le_weak, Qinv_lt_0_compat, pow2_pos.
  - apply Qle_trans with (pow2 (ilog2 y)).
    + apply double_le_pow2; [exact Hx | | lia].
      apply Qle_trans with (pow2 (ilog2 x + 1));
        [apply Qlt_le_weak; exact Hxhi | apply pow2_le; lia].
    + apply double_ge_pow2; [exact Hy | lia].
Qed.

Lemma double_nonpos (x : Q) : x <= 0 -> double x <= 0.
Proof.
  intros Hx. destruct (Qlt_le_dec x 0) as [Hneg | Hge].
  - rewrite (double_neg_eq x Hneg).
    assert (0 <= double (- x)) by (apply double_nonneg; lra). lra.
  - rewrite (double_zero x); [apply Qle_refl | apply Qle_antisym; assumption].
Qed.

(** Rounding keeps the order, subnormal numbers included. *)
Lemma double_mono (x y : Q) : x <= y -> double x <= double y.
Proof.
  intros Hxy.
  destruct (Qlt_le_dec 0 x) as [Hx | Hx].
  - apply double_mono_pos; assumption.
  - destruct (Qlt_le_dec 0 y) as [Hy | Hy].
    + apply Qle_trans with 0; [apply double_nonpos; exact Hx |].
      apply double_nonneg. lra.
    + destruct (Qlt_le_dec y 0) as [Hyneg | Hyge].
      * assert (Hxneg : x < 0) by lra.
        rewrite (double_neg_eq x Hxneg), (double_neg_eq y Hyneg).
        apply Qopp_le_compat. apply double_mono_pos; lra.
      * rewrite (double_zero y); [| apply Qle_antisym; assumption].
        apply double_nonpos. exact Hx.
Qed.

Lemma double_one : double 1 == 1.
Proof. vm_compute. reflexivity. Qed.

Lemma double_nearest : Nearest double.
Proof.
  constructor.
  - exact double_comp.
  - exact double_mono.
  - exact double_opp.
  - exact double_one.
Qed.

(** From the least normal number on, the rounding is the one with a free
    exponent. *)
Lemma double_normal (x : Q) : double_tiny <= x -> double x = binary64 x.
Proof.
  intros Hx. unfold double_tiny in Hx.
  assert (Hpos : 0 < x)
    by (apply Qlt_le_trans with (pow2 (-1022)); [apply pow2_pos | exact Hx]).
  destruct (ilog2_spec x Hpos) as [_ Hhi].
  assert (HL : (-1022 < ilog2 x + 1)%Z).
  { apply pow2_lt_inv. apply Qle_lt_trans with x; assumption. }
  rewrite (double_pos_eq x Hpos), (binary64_pos_eq x Hpos).
  replace (Z.max (ilog2 x - 52) emin) with (ilog2 x - 52)%Z
    by (unfold emin; lia).
  reflexivity.
Qed.

(** Zero and the normal numbers are rounded with a relative error of
    [2^-53] at most. *)
Lemma double_near (x : Q) :
  x == 0 \/ double_tiny <= x ->
  (1 - eps64) * x <= double x /\ double x <= (1 + eps64) * x.
Proof.
  intros [H0 | Hn].
  - rewrite (double_zero x H0). rewrite H0. split; discriminate.
  - rewrite (double_normal x Hn). apply binary64_near.
    apply Qle_trans with double_tiny; [| exact Hn].
    apply Qlt_le_weak. apply pow2_pos.
Qed.

End DoubleFacts.

(** ** The band arithmetic *)

Module BandsFacts.
Import Gateway GatewayFacts Float Bands.

Local Open Scope Q_scope.

Lemma gt0_Num (q : Q) : gt0 (Num q) = true <-> 0 < q.
Proof.
  simpl. rewrite negb_true_iff. split.
  - intros H. apply Qnot_le_lt. intros Hle.
    apply Qle_bool_iff in Hle. congruence.
  - intros H. destruct (Qle_bool q 0) eqn:Hb; [| reflexivity].
    apply Qle_bool_iff in Hb. exfalso. apply (Qlt_not_le _ _ H). exact Hb.
Qed.

(** What lies between the largest number and its opposite does not
    overflow. *)
Lemma finite_num (fmax q : Q) :
  - fmax <= q -> q <= fmax -> finite fmax q = Num q.
Proof.
  intros Hlo Hhi. unfold finite.
  destruct (Qlt_le_dec fmax q) as [H | _].
  - exfalso. apply (Qlt_not_le _ _ H). exact Hhi.
  - destruct (Qlt_le_dec q (- fmax)) as [H | _]; [| reflexivity].
    destruct (Qeq_dec q (- fmax)) as [He | Hne].
    + exfalso. rewrite He in H. apply (Qlt_irrefl _ H).
    + exfalso. apply (Qlt_not_le _ _ H). exact Hlo.
Qed.

(** The filter lets through what is more than zero and turns the rest
    into NaN; what it has let through it leaves alone. *)
Lemma filter_nodata_idempotent (x : float) :
  filter_nodata (filter_nodata x) = filter_nodata x.
Proof.
  unfold filter_nodata, where_.
  destruct x as [q | | |]; try reflexivity.
  destruct (gt0 (Num q)) eqn:Hq; [rewrite Hq |]; reflexivity.
Qed.

(** What the filter leaves alone: NaN, the positive numbers and the
    positive infinity. *)
Lemma filter_nodata_fixed (x : float) :
  filter_nodata x = x ->
  x = NaN \/ x = PosInf \/ exists a, x = Num a /\ 0 < a.
Proof.
  unfold filter_nodata, where_.
  destruct x as [q | | |]; intros H.
  - destruct (gt0 (Num q)) eqn:Hq; [| discriminate].
    right. right. exists q. split; [reflexivity | apply gt0_Num; exact Hq].
  - right. left. reflexivity.
  - discriminate.
  - left. reflexivity.
Qed.

Section Ordered.

Variable rnd : Q -> Q.
Variable fmax : Q.
Hypothesis nearest : Nearest rnd.
Hypothesis fmax_large : 1 <= fmax.

Lemma near_zero : rnd 0 == 0.
Proof.
  pose proof (near_opp rnd nearest 0) as H.
  rewrite (near_comp rnd nearest (- 0) 0) in H by reflexivity.
  lra.
Qed.

(** A ratio of a number to a larger positive one stays within -1 and 1
    when it is rounded. *)
Lemma ratio_within_one (c d : Q) :
  0 < d -> - d <= c -> c <= d -> -1 <= rnd (c / d) /\ rnd (c / d) <= 1.
Proof.
  intros Hd Hlo Hhi.
  assert (H1 : c / d <= 1) by (apply Qle_shift_div_r; [exact Hd | lra]).
  assert (H2 : -1 <= c / d) by (apply Qle_shift_div_l; [exact Hd | lra]).
  split.
  - apply Qle_trans with (rnd (- (1))).
    + rewrite (near_opp rnd nearest 1), (near_one rnd nearest). apply Qle_refl.
    + apply (near_mono rnd nearest). exact H2.
  - rewrite <- (near_one rnd nearest). apply (near_mono rnd nearest). exact H1.
Qed.

(** The difference of two numbers of the format that are not negative
    lies between them, so it cannot overflow. *)
Lemma difference_between (a b : Q) :
  rnd a == a -> rnd b == b -> 0 <= a -> 0 <= b ->
  - b <= rnd (a + - b) /\ rnd (a + - b) <= a.
Proof.
  intros Ra Rb Ha Hb. split.
  - apply Qle_trans with (rnd (- b)).
    + rewrite (near_opp rnd nearest b), Rb. apply Qle_refl.
    + apply (near_mono rnd nearest). lra.
  - rewrite <- Ra at 2. apply (near_mono rnd nearest). lra.
Qed.

(** The sum of two such numbers is rounded to no less than either. *)
Lemma sum_above (a b : Q) :
  rnd a == a -> rnd b == b -> 0 <= a -> 0 <= b ->
  a <= rnd (a + b) /\ b <= rnd (a + b).
Proof.
  intros Ra Rb Ha Hb. split.
  - rewrite <- Ra at 1. apply (near_mono rnd nearest). lra.
  - rewrite <- Rb at 1. apply (near_mono rnd nearest). lra.
Qed.

Lemma ndvi_positive_sum (a b : Q) :
  rnd a == a -> rnd b == b ->
  0 <= a -> a <= fmax -> 0 <= b -> b <= fmax -> 0 < a + b ->
  exists v, ndvi rnd fmax (Num a) (Num b) = Num v /\ -1 <= v /\ v <= 1.
Proof.
  intros Ra Rb Ha Ha' Hb Hb' Hsum.
  destruct (difference_between a b Ra Rb Ha Hb) as [Hd1 Hd2].
  destruct (sum_above a b Ra Rb Ha Hb) as [Hs1 Hs2].
  unfold ndvi, sub, add, neg.
  rewrite (finite_num fmax (rnd (a + - b))) by lra.
  set (d := rnd (a + - b)) in *. set (s := rnd (a + b)) in *.
  assert (Hs : 0 < s) by lra.
  unfold finite at 1.
  destruct (Qlt_le_dec fmax s) as [Hover | Hfit].
  - exists 0. split; [reflexivity | split; discriminate].
  - destruct (Qlt_le_dec s (- fmax)) as [Hneg | _]; [exfalso; lra |].
    unfold div.
    assert (Hc : Qcompare s 0 = Gt) by (apply Qgt_alt; exact Hs).
    rewrite Hc.
    destruct (ratio_within_one d s Hs) as [Hv1 Hv2]; try lra.
    rewrite finite_num by lra.
    eexists. split; [reflexivity | split; assumption].
Qed.

Lemma ndvi_zero_sum (a b : Q) :
  a == 0 -> b == 0 -> ndvi rnd fmax (Num a) (Num b) = NaN.
Proof.
  intros Ha Hb.
  assert (Hd : rnd (a + b) == 0).
  { rewrite (near_comp rnd nearest (a + b) 0) by lra. apply near_zero. }
  assert (Hn : rnd (a + - b) == 0).
  { rewrite (near_comp rnd nearest (a + - b) 0) by lra. apply near_zero. }
  unfold ndvi, sub, add, neg.
  rewrite (finite_num fmax (rnd (a + - b))) by lra.
  rewrite (finite_num fmax (rnd (a + b))) by lra.
  unfold div, signed_inf.
  rewrite Qeq_alt in Hd, Hn. rewrite Hd, Hn. reflexivity.
Qed.

(** X11: the index of two reflectances of the format that are not negative
    is never infinite: it is NaN where both are zero and a number within
    -1 and 1 everywhere else, also where their sum overflows. *)
Theorem ndvi_of_reflectances (a b : Q) :
  representable rnd fmax (Num a) ->
  representable rnd fmax (Num b) ->
  0 <= a -> 0 <= b ->
  (a == 0 /\ b == 0 -> ndvi rnd fmax (Num a) (Num b) = NaN) /\
  (0 < a + b ->
   exists v, ndvi rnd fmax (Num a) (Num b) = Num v /\ -1 <= v /\ v <= 1).
Proof.
  intros [Ra [_ Ha']] [Rb [_ Hb']] Ha Hb. split.
  - intros [Ha0 Hb0]. apply ndvi_zero_sum; assumption.
  - intros Hsum. apply ndvi_positive_sum; assumption.
Qed.

(** X10: on values of the format that went through the nodata filter (the
    filter leaves them as they are: NaN, or more than zero) the index is a
    number exactly where both bands hold a number; it is NaN everywhere
    else, never an infinity, and where it is a number it lies within -1
    and 1. *)
Theorem ndvi_of_filtered (nir red : float) :
  representable rnd fmax nir ->
  representable rnd fmax red ->
  filter_nodata nir = nir ->
  filter_nodata red = red ->
  let x := ndvi rnd fmax nir red in
  (x = NaN \/ exists v, x = Num v /\ -1 <= v /\ v <= 1) /\
  ((exists v, x = Num v) <->
   (exists a b, nir = Num a /\ red = Num b /\ 0 < a /\ 0 < b)).
Proof.
  intros Rn Rr Hn Hr x. subst x.
  destruct (filter_nodata_fixed nir Hn) as [-> | [-> | [a [-> Ha]]]];
    destruct (filter_nodata_fixed red Hr) as [-> | [-> | [b [-> Hb]]]];
    try (split;
         [left; reflexivity
         | split; [intros [v H]; discriminate
                  | intros [a' [b' [H1 [H2 _]]]]; discriminate]]).
  destruct Rn as [Ra [_ Ha']]. destruct Rr as [Rb [_ Hb']].
  destruct (ndvi_positive_sum a b) as [v [Hv Hbounds]];
    try assumption; try lra.
  rewrite Hv. split.
  - right. exists v. split; [reflexivity | exact Hbounds].
  - split; [intros _; exists a, b; repeat split; assumption |].
    intros _. exists v. reflexivity.
Qed.

End Ordered.

Section Relative.

Variable rnd : Q -> Q.
Variable fmax : Q.
Variable eps : Q.
Variable tiny : Q.
Hypothesis eps_small : 0 <= eps /\ eps <= 1 # 100.
Hypothesis tiny_small : 0 <= tiny /\ tiny <= 1 # 10.
Hypothesis fmax_large : 1 <= fmax.
Hypothesis rnd_near :
  forall x, x == 0 \/ tiny <= x ->
  (1 - eps) * x <= rnd x /\ rnd x <= (1 + eps) * x.

(** The rounding of zero and of what is not too small, within a
    hundredth. *)
Lemma near_hundredth (x : Q) :
  x == 0 \/ tiny <= x ->
  0 <= x /\ (99 # 100) * x <= rnd x /\ rnd x <= (101 # 100) * x.
Proof.
  intros Hx.
  assert (H0 : 0 <= x) by (destruct Hx as [Hx | Hx]; lra).
  destruct (rnd_near x Hx) as [H1 H2].
  assert (He : 0 <= eps * x) by (apply Qmult_le_0_compat; lra).
  assert (He' : eps * x <= (1 # 100) * x)
    by (apply Qmult_le_compat_r; lra).
  split; [exact H0 | split; lra].
Qed.

(** One term of the sum: a band times its rounded weight.  The band is
    zero or not too small, and so is the term. *)
Lemma weighted_band (q v lo hi : Q) :
  1 # 10 <= q -> q <= 1 -> 0 <= lo -> lo <= v -> v <= hi ->
  v == 0 \/ 32 * tiny <= v ->
  let t := rnd (rnd q * v) in
  (98 # 100) * q * lo <= t /\ t <= (1021 # 1000) * q * hi /\
  (t == 0 \/ 2 * tiny <= t).
Proof.
  intros Hq Hq' Hlo Hv1 Hv2 Hv t. subst t.
  set (w := rnd q).
  destruct (near_hundredth q) as [_ [Hw1 Hw2]]; [right; lra |].
  fold w in Hw1, Hw2.
  assert (Hw0 : 0 <= w) by lra.
  assert (Hv0 : 0 <= v) by lra.
  assert (Hp0 : 0 <= w * v) by (apply Qmult_le_0_compat; assumption).
  assert (Hp1 : w * lo <= w * v).
  { rewrite !(Qmult_comm w). apply Qmult_le_compat_r; assumption. }
  assert (Hp2 : (99 # 100) * q * lo <= w * lo)
    by (apply Qmult_le_compat_r; assumption).
  assert (Hp3 : w * v <= w * hi).
  { rewrite !(Qmult_comm w). apply Qmult_le_compat_r; assumption. }
  assert (Hp4 : w * hi <= (101 # 100) * q * hi)
    by (apply Qmult_le_compat_r; [assumption | lra]).
  assert (Hql : 0 <= q * lo) by (apply Qmult_le_0_compat; lra).
  assert (Hqh : 0 <= q * hi) by (apply Qmult_le_0_compat; lra).
  assert (Hp : w * v == 0 \/ tiny <= w * v).
  { destruct Hv as [Hv | Hv].
    - left. rewrite Hv. ring.
    - right.
      assert (Hwv : (99 # 1000) * v <= w * v)
        by (apply Qmult_le_compat_r; lra).
      lra. }
  destruct (near_hundredth (w * v) Hp) as [_ [Hr1 Hr2]].
  split; [lra | split; [lra |]].
  destruct Hv as [Hv | Hv].
  - left.
    assert (Hz : w * v == 0) by (rewrite Hv; ring).
    lra.
  - right.
    assert (Hwv : (99 # 1000) * v <= w * v)
      by (apply Qmult_le_compat_r; lra).
    lra.
Qed.

(** A sum of two terms that are zero or not too small, rounded. *)
Lemma rounded_sum (x y : Q) :
  0 <= x -> 0 <= y ->
  x == 0 \/ 2 * tiny <= x -> y == 0 \/ 2 * tiny <= y ->
  let s := rnd (x + y) in
  (99 # 100) * (x + y) <= s /\ s <= (101 # 100) * (x + y) /\
  (s == 0 \/ tiny <= s).
Proof.
  intros Hx Hy Hx' Hy' s. subst s.
  assert (Hs : x + y == 0 \/ 2 * tiny <= x + y).
  { destruct Hx' as [Hx' | Hx']; [| right; lra].
    destruct Hy' as [Hy' | Hy']; [left; lra | right; lra]. }
  assert (Hs' : x + y == 0 \/ tiny <= x + y)
    by (destruct Hs as [Hs | Hs]; [left; exact Hs | right; lra]).
  destruct (near_hundredth (x + y) Hs') as [_ [H1 H2]].
  split; [exact H1 | split; [exact H2 |]].
  destruct Hs as [Hs | Hs].
  - left. lra.
  - right. lra.
Qed.

(** X12: the green that the notebook makes up stays within the range of the
    three bands it is mixed from, up to the rounding of its operations:
    between 0.96 of the least and 1.04 of the largest of them, where no
    band is so small that a product underflows nor so large that the sum
    overflows. *)
Theorem green_within_bands (red nir09 blue lo hi : Q) :
  0 <= lo ->
  (104 # 100) * hi <= fmax ->
  lo <= red /\ red <= hi /\ (red == 0 \/ 32 * tiny <= red) ->
  lo <= nir09 /\ nir09 <= hi /\ (nir09 == 0 \/ 32 * tiny <= nir09) ->
  lo <= blue /\ blue <= hi /\ (blue == 0 \/ 32 * tiny <= blue) ->
  exists g,
    green rnd fmax (Num red) (Num nir09) (Num blue) = Num g /\
    (96 # 100) * lo <= g /\ g <= (104 # 100) * hi.
Proof.
  intros Hlo Hmax [Hr1 [Hr2 Hr3]] [Hn1 [Hn2 Hn3]] [Hb1 [Hb2 Hb3]].
  destruct (near_hundredth (45 # 100)) as [_ [Hw1 Hw1']]; [right; lra |].
  destruct (near_hundredth (1 # 10)) as [_ [Hw2 Hw2']]; [right; lra |].
  destruct (weighted_band (45 # 100) red lo hi) as [Ht1 [Ht1' Ht1'']];
    try assumption; try lra.
  destruct (weighted_band (1 # 10) nir09 lo hi) as [Ht2 [Ht2' Ht2'']];
    try assumption; try lra.
  destruct (weighted_band (45 # 100) blue lo hi) as [Ht3 [Ht3' Ht3'']];
    try assumption; try lra.
  unfold green, lit.
  rewrite (finite_num fmax (rnd (45 # 100))) by lra.
  rewrite (finite_num fmax (rnd (1 # 10))) by lra.
  cbn [mul].
  set (t1 := rnd (rnd (45 # 100) * red)) in *.
  set (t2 := rnd (rnd (1 # 10) * nir09)) in *.
  set (t3 := rnd (rnd (45 # 100) * blue)) in *.
  rewrite (finite_num fmax t1) by lra.
  rewrite (finite_num fmax t2) by lra.
  rewrite (finite_num fmax t3) by lra.
  cbn [add].
  destruct (rounded_sum t1 t2) as [Hs1 [Hs2 Hs3]]; try assumption; try lra.
  set (s := rnd (t1 + t2)) in *.
  rewrite (finite_num fmax s) by lra.
  cbn [add].
  assert (Hg : s + t3 == 0 \/ tiny <= s + t3).
  { destruct Hs3 as [Hs3 | Hs3]; [| right; lra].
    destruct Ht3'' as [Ht3'' | Ht3'']; [left; lra | right; lra]. }
  destruct (near_hundredth (s + t3) Hg) as [_ [Hg1 Hg2]].
  rewrite (finite_num fmax (rnd (s + t3))) by lra.
  eexists. split; [reflexivity |].
  split; lra.
Qed.

End Relative.

Lemma representable_double (q : Q) :
  Qeq_bool (double q) q = true ->
  Qle_bool (- double_max) q = true ->
  Qle_bool q double_max = true ->
  representable double double_max (Num q).
Proof.
  intros H1 H2 H3. simpl. split; [apply Qeq_bool_iff; exact H1 |].
  split; apply Qle_bool_iff; assumption.
Qed.

Lemma double_max_large : 1 <= double_max.
Proof. apply Qle_bool_iff. vm_compute. reflexivity. Qed.

Lemma ndvi_of_reflectances_double :
  (3000 == 0 /\ 1000 == 0 ->
   ndvi double double_max (Num 3000) (Num 1000) = NaN) /\
  (0 < 3000 + 1000 ->
   exists v, ndvi double double_max (Num 3000) (Num 1000) = Num v /\
             -1 <= v /\ v <= 1).
Proof.
  apply (ndvi_of_reflectances double double_max DoubleFacts.double_nearest
           double_max_large 3000 1000).
  - apply representable_double; vm_compute; reflexivity.
  - apply representable_double; vm_compute; reflexivity.
  - discriminate.
  - discriminate.
Defined.

Lemma ndvi_of_filtered_double :
  let nir := filter_nodata (Num 3000) in
  let red := filter_nodata (Num 1000) in
  let x := ndvi double double_max nir red in
  (x = NaN \/ exists v, x = Num v /\ -1 <= v /\ v <= 1) /\
  ((exists v, x = Num v) <->
   (exists a b, nir = Num a /\ red = Num b /\ 0 < a /\ 0 < b)).
Proof.
  intros nir red.
  apply (ndvi_of_filtered double double_max DoubleFacts.double_nearest
           double_max_large nir red).
  - apply representable_double; vm_compute; reflexivity.
  - apply representable_double; vm_compute; reflexivity.
  - reflexivity.
  - reflexivity.
Defined.

Example ndvi_unfiltered_nodata :
  ndvi double double_max (Num 0) (Num 0) = NaN.
Proof. vm_compute. reflexivity. Qed.

Example ndvi_half :
  exists v, ndvi double double_max (Num 3000) (Num 1000) = Num v /\ v == 1 # 2.
Proof. eexists. split; [vm_compute; reflexivity | vm_compute; reflexivity]. Qed.

(** Where the sum of the two bands overflows and their difference does
    not, the index is zero: [15 * 10^307] and [10^308]. *)
Example ndvi_sum_overflows :
  let nir := Num (double (15 * 10 ^ 307)) in
  let red := Num (double (10 ^ 308)) in
  add double double_max nir red = PosInf /\
  exists v, ndvi double double_max nir red = Num v /\ v == 0.
Proof.
  split; [vm_compute; reflexivity |].
  eexists. split; vm_compute; reflexivity.
Qed.

(** Without the bound from below the green is not within the bands: of
    three bands at the least positive number, [2^-1074], every product
    underflows and the green is zero. *)
Example green_underflows :
  let v := pow2 (-1074) in
  double v == v /\
  exists g, green double double_max (Num v) (Num v) (Num v) = Num g /\ g == 0.
Proof.
  split; [vm_compute; reflexivity |].
  eexists. split; vm_compute; reflexivity.
Qed.

Lemma double_tiny_small : 0 <= double_tiny /\ double_tiny <= 1 # 10.
Proof. split; apply Qle_bool_iff; vm_compute; reflexivity. Qed.

Lemma green_within_bands_double :
  exists g,
    green double double_max
      (Num (30 # 100)) (Num (50 # 100)) (Num (20 # 100)) = Num g /\
    (96 # 100) * (20 # 100) <= g /\ g <= (104 # 100) * (50 # 100).
Proof.
  apply (green_within_bands double double_max eps64 double_tiny).
  - split; discriminate.
  - exact double_tiny_small.
  - exact double_max_large.
  - exact DoubleFacts.double_near.
  - discriminate.
  - apply Qle_bool_iff; vm_compute; reflexivity.
  - split; [discriminate | split; [discriminate |]].
    right. apply Qle_bool_iff; vm_compute; reflexivity.
  - split; [discriminate | split; [discriminate |]].
    right. apply Qle_bool_iff; vm_compute; reflexivity.
  - split; [discriminate | split; [discriminate |]].
    right. apply Qle_bool_iff; vm_compute; reflexivity.
Defined.

End BandsFacts.

(** ** The bounding box of the track *)

Module TrackFacts.
Import Track.

Local Open Scope Q_scope.

Lemma widen_all (rest : list Fix) (x0 y0 x1 y1 minx miny maxx maxy : Q) :
  fold_left widen rest (x0, y0, x1, y1) = (minx, miny, maxx, maxy) ->
  (minx <= x0 /\ miny <= y0 /\ x1 <= maxx /\ y1 <= maxy) /\
  (forall p, In p rest ->
     minx <= lon p /\ lon p <= maxx /\ miny <= lat p /\ lat p <= maxy) /\
  (minx == x0 \/ exists p, In p rest /\ minx == lon p) /\
  (miny == y0 \/ exists p, In p rest /\ miny == lat p) /\
  (maxx == x1 \/ exists p, In p rest /\ maxx == lon p) /\
  (maxy == y1 \/ exists p, In p rest /\ maxy == lat p).
Proof.
  revert x0 y0 x1 y1.
  induction rest as [| p rest IH]; intros x0 y0 x1 y1 H; simpl in H.
  - injection H as <- <- <- <-.
    split; [repeat split; apply Qle_refl |].
    split; [intros q [] |].
    repeat split; left; reflexivity.
  - apply IH in H.
    destruct H as [[Ha [Hb [Hc Hd]]] [Hall [Hminx [Hminy [Hmaxx Hmaxy]]]]].
    pose proof (Q.le_min_l x0 (lon p)). pose proof (Q.le_min_r x0 (lon p)).
    pose proof (Q.le_min_l y0 (lat p)). pose proof (Q.le_min_r y0 (lat p)).
    pose proof (Q.le_max_l x1 (lon p)). pose proof (Q.le_max_r x1 (lon p)).
    pose proof (Q.le_max_l y1 (lat p)). pose proof (Q.le_max_r y1 (lat p)).
    split; [repeat split; lra |].
    split.
    { intros p' [<- | Hin]; [repeat split; lra | apply Hall; exact Hin]. }
    repeat split.
    + destruct Hminx as [Hm | [p' [Hin Hm]]].
      * destruct (Q.min_spec x0 (lon p)) as [[_ He] | [_ He]].
        -- left. rewrite Hm, He. reflexivity.
        -- right. exists p. split; [left; reflexivity |].
           rewrite Hm, He. reflexivity.
      * right. exists p'. split; [right; exact Hin | exact Hm].
    + destruct Hminy as [Hm | [p' [Hin Hm]]].
      * destruct (Q.min_spec y0 (lat p)) as [[_ He] | [_ He]].
        -- left. rewrite Hm, He. reflexivity.
        -- right. exists p. split; [left; reflexivity |].
           rewrite Hm, He. reflexivity.
      * right. exists p'. split; [right; exact Hin | exact Hm].
    + destruct Hmaxx as [Hm | [p' [Hin Hm]]].
      * destruct (Q.max_spec x1 (lon p)) as [[_ He] | [_ He]].
        -- right. exists p. split; [left; reflexivity |].
           rewrite Hm, He. reflexivity.
        -- left. rewrite Hm, He. reflexivity.
      * right. exists p'. split; [right; exact Hin | exact Hm].
    + destruct Hmaxy as [Hm | [p' [Hin Hm]]].
      * destruct (Q.max_spec y1 (lat p)) as [[_ He] | [_ He]].
        -- right. exists p. split; [left; reflexivity |].
           rewrite Hm, He. reflexivity.
        -- left. rewrite Hm, He. reflexivity.
      * right. exists p'. split; [right; exact Hin | exact Hm].
Qed.

Lemma total_bounds_spec (rows : list Fix) (minx miny maxx maxy : Q) :
  total_bounds rows = Some (minx, miny, maxx, maxy) ->
  (forall p, In p rows ->
     minx <= lon p /\ lon p <= maxx /\ miny <= lat p /\ lat p <= maxy) /\
  (exists p, In p rows /\ minx == lon p) /\
  (exists p, In p rows /\ miny == lat p) /\
  (exists p, In p rows /\ maxx == lon p) /\
  (exists p, In p rows /\ maxy == lat p).
Proof.
  destruct rows as [| r rest]; simpl; intros H; [discriminate |].
  injection H as H. apply widen_all in H.
  destruct H as [[Ha [Hb [Hc Hd]]] [Hall [Hminx [Hminy [Hmaxx Hmaxy]]]]].
  split.
  { intros p [<- | Hin]; [repeat split; assumption | apply Hall; exact Hin]. }
  repeat split.
  - destruct Hminx as [Hm | [p [Hin Hm]]];
      [exists r | exists p]; split; auto.
  - destruct Hminy as [Hm | [p [Hin Hm]]];
      [exists r | exists p]; split; auto.
  - destruct Hmaxx as [Hm | [p [Hin Hm]]];
      [exists r | exists p]; split; auto.
  - destruct Hmaxy as [Hm | [p [Hin Hm]]];
      [exists r | exists p]; split; auto.
Qed.

(** A time between [start] and [stop] falls on the day of [start]. *)
Lemma window_on_start_day (t : Z) :
  (start <= t <= stop)%Z -> date t = date start.
Proof.
  intros [H1 H2]. unfold date.
  assert (Hlo : (start / ns_per_day <= t / ns_per_day)%Z)
    by (apply Z.div_le_mono; [reflexivity | exact H1]).
  assert (Hhi : (t / ns_per_day <= stop / ns_per_day)%Z)
    by (apply Z.div_le_mono; [reflexivity | exact H2]).
  change (stop / ns_per_day)%Z with (start / ns_per_day)%Z in Hhi.
  lia.
Qed.

(** X13: the box the search is given is the smallest one around the fixes of
    the day of [start]: it holds every fix of that day, in particular every
    fix between [start] and [stop], and each of its sides passes through
    one of them. *)
Theorem bbox_covers_window (df : list Fix) (minx miny maxx maxy : Q) :
  bbox df = Some (minx, miny, maxx, maxy) ->
  (forall p, In p df -> date (fix_time p) = date start ->
     minx <= lon p /\ lon p <= maxx /\ miny <= lat p /\ lat p <= maxy) /\
  (forall p, In p df -> (start <= fix_time p <= stop)%Z ->
     minx <= lon p /\ lon p <= maxx /\ miny <= lat p /\ lat p <= maxy) /\
  (exists p, In p df /\ date (fix_time p) = date start /\ minx == lon p) /\
  (exists p, In p df /\ date (fix_time p) = date start /\ miny == lat p) /\
  (exists p, In p df /\ date (fix_time p) = date start /\ maxx == lon p) /\
  (exists p, In p df /\ date (fix_time p) = date start /\ maxy == lat p).
Proof.
  unfold bbox. intros H. apply total_bounds_spec in H.
  destruct H as [Hall [Hminx [Hminy [Hmaxx Hmaxy]]]].
  assert (Hsub : forall p, In p (subset df) ->
                   In p df /\ date (fix_time p) = date start).
  { intros p Hp. unfold subset in Hp. apply filter_In in Hp.
    destruct Hp as [Hin Hd]. apply Z.eqb_eq in Hd. split; assumption. }
  assert (Hday : forall p, In p df -> date (fix_time p) = date start ->
                   minx <= lon p /\ lon p <= maxx /\
                   miny <= lat p /\ lat p <= maxy).
  { intros p Hin Hd. apply Hall. unfold subset. apply filter_In.
    split; [exact Hin |]. apply Z.eqb_eq. exact Hd. }
  split; [exact Hday |].
  split.
  { intros p Hin Hwin. apply Hday; [exact Hin |].
    apply window_on_start_day. exact Hwin. }
  repeat split.
  - destruct Hminx as [p [Hp Hm]]. destruct (Hsub p Hp). exists p. auto.
  - destruct Hminy as [p [Hp Hm]]. destruct (Hsub p Hp). exists p. auto.
  - destruct Hmaxx as [p [Hp Hm]]. destruct (Hsub p Hp). exists p. auto.
  - destruct Hmaxy as [p [Hp Hm]]. destruct (Hsub p Hp). exists p. auto.
Qed.

(** X14: there is no box exactly when the track has no fix on the day of
    [start]. *)
Theorem bbox_none_iff (df : list Fix) :
  bbox df = None <->
  forall p, In p df -> date (fix_time p) <> date start.
Proof.
  unfold bbox, subset. split.
  - intros H p Hin Hd.
    assert (Hp : In p (filter (fun r => (date (fix_time r) =? date start)%Z) df)).
    { apply filter_In. split; [exact Hin | apply Z.eqb_eq; exact Hd]. }
    destruct (filter _ df); [destruct Hp | discriminate].
  - intros H.
    destruct (filter (fun r => (date (fix_time r) =? date start)%Z) df)
      as [| r rest] eqn:Hf; [reflexivity |].
    exfalso.
    assert (Hr : In r (filter (fun r => (date (fix_time r) =? date start)%Z) df))
      by (rewrite Hf; left; reflexivity).
    apply filter_In in Hr. destruct Hr as [Hin Hd].
    apply Z.eqb_eq in Hd. apply (H r Hin Hd).
Qed.

(** Three fixes of the storm, the second and third on the day of
    [start]. *)
Lemma bbox_covers_window_three_fixes :
  let df := [{| fix_time := 1536602400 * 1000000000;
                lon := - (615 # 10); lat := 263 # 10 |};
             {| fix_time := 1536667200 * 1000000000;
                lon := - (649 # 10); lat := 275 # 10 |};
             {| fix_time := 1536678000 * 1000000000;
                lon := - (656 # 10); lat := 279 # 10 |}] in
  (forall p, In p df -> date (fix_time p) = date start ->
     - (656 # 10) <= lon p /\ lon p <= - (649 # 10) /\
     275 # 10 <= lat p /\ lat p <= 279 # 10) /\
  (forall p, In p df -> (start <= fix_time p <= stop)%Z ->
     - (656 # 10) <= lon p /\ lon p <= - (649 # 10) /\
     275 # 10 <= lat p /\ lat p <= 279 # 10) /\
  (exists p, In p df /\ date (fix_time p) = date start /\ - (656 # 10) == lon p) /\
  (exists p, In p df /\ date (fix_time p) = date start /\ 275 # 10 == lat p) /\
  (exists p, In p df /\ date (fix_time p) = date start /\ - (649 # 10) == lon p) /\
  (exists p, In p df /\ date (fix_time p) = date start /\ 279 # 10 == lat p).
Proof.
  intros df.
  apply (bbox_covers_window df). reflexivity.
Defined.

End TrackFacts.

(** ** The two periods of the warming map *)

Module DaymetFacts.
Import Daymet.

Local Open Scope Z_scope.

Lemma isin_summer (m : Z) :
  isin m summer_months = true <-> m = 6 \/ m = 7 \/ m = 8.
Proof.
  unfold isin, summer_months. simpl.
  rewrite !orb_true_iff, !Z.eqb_eq. intuition discriminate.
Qed.

Lemma date_leb_le (a b : Date) :
  date_leb a b = true <->
  year a < year b \/
  (year a = year b /\ (month a < month b \/ (month a = month b /\ day a <= day b))).
Proof.
  unfold date_leb.
  rewrite !orb_true_iff, !andb_true_iff, !orb_true_iff, !andb_true_iff.
  rewrite !Z.ltb_lt, !Z.eqb_eq, Z.leb_le. reflexivity.
Qed.

Section Series.

Variable V : Type.

(** X16: the early and the late period are not apart: a summer month belongs
    to both exactly when it is one of 1988, so the summer of 1988 counts in
    the mean of the baseline and in the mean it is compared with. *)
Theorem periods_share_1988 (ts : list (Date * V)) (t : Date) (v : V) :
  In (t, v) (summer ts) ->
  1 <= day t <= 31 ->
  (In (t, v) (sel early_period (summer ts)) /\
   In (t, v) (sel late_period (summer ts)) <->
   year t = 1988).
Proof.
  intros Hin Hday.
  assert (Hm : month t = 6 \/ month t = 7 \/ month t = 8).
  { unfold summer in Hin. apply filter_In in Hin.
    destruct Hin as [_ Hm]. apply isin_summer in Hm. exact Hm. }
  unfold sel. rewrite !filter_In. unfold in_slice, early_period, late_period.
  simpl. rewrite !andb_true_iff, !date_leb_le. simpl.
  split.
  - intros [[_ He] [_ [Hl1 Hl2]]]. lia.
  - intros Hy. repeat split; try exact Hin; lia.
Qed.

(** X17: nothing is lost between the periods either: every summer month up to
    2018 is in one of them. *)
Theorem periods_cover (ts : list (Date * V)) (t : Date) (v : V) :
  In (t, v) (summer ts) ->
  1 <= day t <= 31 ->
  year t <= 2018 ->
  In (t, v) (sel early_period (summer ts)) \/
  In (t, v) (sel late_period (summer ts)).
Proof.
  intros Hin Hday Hy.
  assert (Hm : month t = 6 \/ month t = 7 \/ month t = 8).
  { unfold summer in Hin. apply filter_In in Hin.
    destruct Hin as [_ Hm]. apply isin_summer in Hm. exact Hm. }
  unfold sel. rewrite !filter_In. unfold in_slice, early_period, late_period.
  simpl. rewrite !andb_true_iff, !date_leb_le. simpl.
  destruct (Z_lt_le_dec (year t) 1988).
  - left. split; [exact Hin |]. lia.
  - right. split; [exact Hin |]. lia.
Qed.

End Series.

Lemma periods_share_1988_july :
  let t := {| year := 1988; month := 7; day := 16 |} in
  let ts := [({| year := 1987; month := 7; day := 16 |}, 291);
             ({| year := 1988; month := 1; day := 16 |}, 270);
             (t, 293);
             ({| year := 1989; month := 7; day := 16 |}, 292)] in
  In (t, 293) (sel early_period (summer ts)) /\
  In (t, 293) (sel late_period (summer ts)) <->
  year t = 1988.
Proof.
  intros t ts.
  apply (periods_share_1988 Z ts t 293).
  - simpl. right. left. reflexivity.
  - simpl. lia.
Defined.

Lemma periods_cover_july :
  let t := {| year := 2001; month := 7; day := 16 |} in
  let ts := [(t, 293); ({| year := 2001; month := 12; day := 16 |}, 270)] in
  In (t, 293) (sel early_period (summer ts)) \/
  In (t, 293) (sel late_period (summer ts)).
Proof.
  intros t ts.
  apply (periods_cover Z ts t 293).
  - simpl. left. reflexivity.
  - simpl. lia.
  - simpl. lia.
Defined.

End DaymetFacts.

(** ** Time labels that occur once *)

Module FlorenceLabels.
Import Florence FlorenceFacts FlorenceMore.

Local Open Scope Z_scope.

Lemma filter_key_absent {A} (key : A -> Z) (k : Z) (l : list A) :
  ~ In k (map key l) -> filter (fun y => key y =? k) l = [].
Proof.
  induction l as [| a l IH]; simpl; intros Hnot.
  - reflexivity.
  - destruct (Z.eqb_spec (key a) k) as [He | Hne].
    + exfalso. apply Hnot. left. exact He.
    + apply IH. intros Hin. apply Hnot. right. exact Hin.
Qed.

Lemma filter_key_once {A} (key : A -> Z) (x : A) (l : list A) :
  NoDup (map key l) -> In x l ->
  filter (fun y => key y =? key x) l = [x].
Proof.
  induction l as [| a l IH]; simpl; intros Hnd Hin.
  - destruct Hin.
  - inversion Hnd as [| ? ? Hnotin Hnd']; subst.
    destruct Hin as [-> | Hin].
    + rewrite Z.eqb_refl. f_equal. apply filter_key_absent. exact Hnotin.
    + destruct (Z.eqb_spec (key a) (key x)) as [He | Hne].
      * exfalso. apply Hnotin. rewrite He. apply in_map. exact Hin.
      * apply IH; assumption.
Qed.

Section Build.

Variable Plane : Type.
Variable sign : Item -> Item.
Variable open_rasterio : string -> result (list Plane).

Lemma resolves_to_filter (items : list Item) (bands : list string)
      (d : DataArray Plane) (t : Z) :
  build sign open_rasterio items bands = inr d ->
  Forall2 (holds_bands_of open_rasterio bands)
          (filter (fun it => datetime it =? t) (map sign items))
          (resolves_to d t).
Proof.
  intros H. apply build_inv in H.
  destruct H as [names [arrays [_ [Harrays [_ [_ [Ht [_ Hv]]]]]]]].
  apply rows_of_arrays in Harrays.
  unfold resolves_to. rewrite Ht, Hv. unfold signed_items_of.
  rewrite <- (sorted_stable datetime t (map sign items)).
  apply sel_time_rows. exact Harrays.
Qed.

(** X5: when no two items share an acquisition time, a time label stands for
    one source: the label of an item resolves to the bands of that item and
    nothing else, and a time that no item has resolves to nothing. *)
Theorem build_label_resolves_once (items : list Item) (bands : list string)
        (d : DataArray Plane) :
  build sign open_rasterio items bands = inr d ->
  NoDup (map datetime (map sign items)) ->
  (forall it, In it (map sign items) ->
     exists row, resolves_to d (datetime it) = [row] /\
                 holds_bands_of open_rasterio bands it row) /\
  (forall t, ~ In t (map datetime (map sign items)) -> resolves_to d t = []).
Proof.
  intros Hbuild Hnd. split.
  - intros it Hit.
    pose proof (resolves_to_filter items bands d (datetime it) Hbuild) as HF.
    rewrite (filter_key_once datetime it (map sign items) Hnd Hit) in HF.
    inversion HF as [| ? row ? rows Hrow Hrest]; subst.
    inversion Hrest; subst.
    exists row. split; [reflexivity | exact Hrow].
  - intros t Ht.
    pose proof (resolves_to_filter items bands d t Hbuild) as HF.
    rewrite (filter_key_absent datetime t (map sign items) Ht) in HF.
    inversion HF. reflexivity.
Qed.

End Build.

Lemma build_label_resolves_once_two_scenes :
  let items := [goes_item "m2-1302" 1302; goes_item "m1-1300" 1300] in
  exists d,
    build sign_token open_by_url items bands = inr d /\
    (forall it, In it (map sign_token items) ->
       exists row, resolves_to d (datetime it) = [row] /\
                   holds_bands_of open_by_url bands it row) /\
    (forall t, ~ In t (map datetime (map sign_token items)) ->
       resolves_to d t = []).
Proof.
  intros items. eexists. split.
  - reflexivity.
  - apply (build_label_resolves_once string sign_token open_by_url items bands).
    + reflexivity.
    + simpl. repeat constructor; simpl; intuition discriminate.
Defined.

End FlorenceLabels.

(** ** The storm among the tracks *)

Module StormFacts.
Import Track.

Lemma first_true_some (l : list bool) (i : nat) :
  first_true l = Some i ->
  nth_error l i = Some true /\
  forall j, (j < i)%nat -> nth_error l j = Some false.
Proof.
  revert i. induction l as [| b l IH]; intros i H; simpl in H.
  - discriminate.
  - destruct b.
    + injection H as <-. split; [reflexivity | intros j Hj; lia].
    + destruct (first_true l) as [i' |]; simpl in H; [| discriminate].
      injection H as <-. destruct (IH i' eq_refl) as [Hi Hbefore].
      split; [exact Hi |].
      intros [| j] Hj; [reflexivity |]. simpl. apply Hbefore. lia.
Qed.

Lemma first_true_none (l : list bool) :
  first_true l = None -> forall b, In b l -> b = false.
Proof.
  induction l as [| a l IH]; simpl; intros H b Hin.
  - destruct Hin.
  - destruct a; [discriminate |].
    destruct (first_true l); [discriminate |].
    destruct Hin as [<- | Hin]; [reflexivity | apply IH; auto].
Qed.

(** X15: looking the storm up by its identifier gives the position of the
    first track that carries it; when no track carries it the result is
    position 0, the first track of the file, and no error. *)
Theorem storm_loc_first_match (sid : list string) (storm_id : string) :
  sid <> [] ->
  exists i,
    storm_loc sid storm_id = inr i /\
    (In storm_id sid ->
       nth_error sid i = Some storm_id /\
       forall j s, (j < i)%nat -> nth_error sid j = Some s -> s <> storm_id) /\
    (~ In storm_id sid -> i = O).
Proof.
  intros Hne. unfold storm_loc, argmax.
  destruct sid as [| s0 sid]; [contradiction |].
  set (l := s0 :: sid).
  change (map (fun s => String.eqb s storm_id) (s0 :: sid))
    with (String.eqb s0 storm_id :: map (fun s => String.eqb s storm_id) sid).
  change (String.eqb s0 storm_id :: map (fun s => String.eqb s storm_id) sid)
    with (map (fun s => String.eqb s storm_id) l).
  destruct (first_true (map (fun s => String.eqb s storm_id) l)) as [i |] eqn:Hf.
  - exists i. split; [reflexivity |].
    apply first_true_some in Hf. destruct Hf as [Hi Hbefore].
    split.
    + intros _. split.
      * rewrite nth_error_map in Hi.
        destruct (nth_error l i) as [s |]; simpl in Hi; [| discriminate].
        injection Hi as Hi. apply String.eqb_eq in Hi. subst s. reflexivity.
      * intros j s Hj Hs Heq.
        specialize (Hbefore j Hj). rewrite nth_error_map, Hs in Hbefore.
        simpl in Hbefore. injection Hbefore as Hb.
        subst s. rewrite String.eqb_refl in Hb. discriminate.
    + intros Hnot. exfalso. apply Hnot.
      rewrite nth_error_map in Hi.
      destruct (nth_error l i) as [s |] eqn:Hs; simpl in Hi; [| discriminate].
      injection Hi as Hi. apply String.eqb_eq in Hi. subst s.
      apply (nth_error_In l i Hs).
  - exists O. split; [reflexivity |].
    split; [| reflexivity].
    intros Hin. exfalso.
    pose proof (first_true_none _ Hf (String.eqb storm_id storm_id)) as Hb.
    rewrite String.eqb_refl in Hb.
    assert (true = false); [| discriminate].
    apply Hb. apply in_map_iff. exists storm_id. split; [apply String.eqb_refl | exact Hin].
Qed.

Lemma storm_loc_first_match_florence :
  exists i,
    storm_loc ["2018239N13343"; "2018242N13343"; "2018246N14326"]%string STORM_ID
      = inr i /\
    (In STORM_ID ["2018239N13343"; "2018242N13343"; "2018246N14326"]%string ->
       nth_error ["2018239N13343"; "2018242N13343"; "2018246N14326"]%string i
         = Some STORM_ID /\
       forall j s, (j < i)%nat ->
         nth_error ["2018239N13343"; "2018242N13343"; "2018246N14326"]%string j
           = Some s -> s <> STORM_ID) /\
    (~ In STORM_ID ["2018239N13343"; "2018242N13343"; "2018246N14326"]%string ->
       i = O).
Proof.
  apply storm_loc_first_match. discriminate.
Defined.

Example storm_loc_unknown_storm :
  storm_loc ["2018239N13343"; "2018246N14326"]%string STORM_ID = inr O.
Proof. reflexivity. Qed.

End StormFacts.

(** ** The signing loop of the Landsat items *)

Module LandsatFacts.
Import Florence Landsat.

Lemma dict_get_set_same {V} (d : dict V) (k : string) (v : V) :
  dict_get (dict_set d k v) k = inr v.
Proof.
  induction d as [| [k' v'] d IH]; simpl.
  - rewrite String.eqb_refl. reflexivity.
  - destruct (String.eqb k' k) eqn:He; simpl.
    + rewrite String.eqb_refl. reflexivity.
    + rewrite He. exact IH.
Qed.

Lemma dict_get_set_other {V} (d : dict V) (k k' : string) (v : V) :
  k' <> k -> dict_get (dict_set d k v) k' = dict_get d k'.
Proof.
  intros Hne. induction d as [| [k0 v0] d IH]; simpl.
  - destruct (String.eqb_spec k k'); [congruence | reflexivity].
  - destruct (String.eqb_spec k0 k) as [-> | Hk]; simpl.
    + destruct (String.eqb_spec k k'); [congruence | reflexivity].
    + destruct (String.eqb k0 k'); [reflexivity | exact IH].
Qed.

(** X18: what the loop does to the metadata of an item before it signs it: the
    EPSG code is 32619 whatever it was, no link is left, and every other
    property is as it was. *)
Theorem fixed_metadata (v : StacItem) :
  let v' := clear_links (set_epsg v) in
  dict_get (properties v') "proj:epsg" = inr (JInt 32619) /\
  (forall k, k <> "proj:epsg"%string ->
     dict_get (properties v') k = dict_get (properties v) k) /\
  links v' = [] /\
  stac_id v' = stac_id v.
Proof.
  simpl. repeat split.
  - apply dict_get_set_same.
  - intros k Hk. apply dict_get_set_other. exact Hk.
Qed.

Lemma set_nth_length {A} (n : nat) (x : A) (l : list A) :
  List.length (set_nth n x l) = List.length l.
Proof.
  revert n. induction l as [| y l IH]; intros [| n]; simpl; auto.
Qed.

Lemma set_nth_same {A} (n : nat) (x : A) (l : list A) :
  (n < List.length l)%nat -> nth_error (set_nth n x l) n = Some x.
Proof.
  revert n. induction l as [| y l IH]; intros [| n] Hn; simpl in *; try lia.
  - reflexivity.
  - apply IH. lia.
Qed.

Lemma set_nth_other {A} (n m : nat) (x : A) (l : list A) :
  m <> n -> nth_error (set_nth n x l) m = nth_error l m.
Proof.
  revert n m. induction l as [| y l IH]; intros [| n] [| m] Hne; simpl;
    try reflexivity; try congruence.
  apply IH. congruence.
Qed.

Lemma update_length (h : heap) (r : nat) (f : StacItem -> StacItem) :
  List.length (update h r f) = List.length h.
Proof.
  unfold update. destruct (nth_error h r); [apply set_nth_length | reflexivity].
Qed.

Lemma update_other (h : heap) (r m : nat) (f : StacItem -> StacItem) :
  m <> r -> nth_error (update h r f) m = nth_error h m.
Proof.
  intros Hne. unfold update.
  destruct (nth_error h r); [apply set_nth_other; exact Hne | reflexivity].
Qed.

Lemma update_same (h : heap) (r : nat) (f : StacItem -> StacItem) (v : StacItem) :
  nth_error h r = Some v -> nth_error (update h r f) r = Some (f v).
Proof.
  intros Hv. unfold update. rewrite Hv.
  apply set_nth_same. apply nth_error_Some. congruence.
Qed.

Section Loop.

Variable sign : StacItem -> StacItem.

(** One turn of the loop adds two objects, the clone and the signed item,
    and leaves alone every object that was there. *)
Lemma step_spec (h : heap) (acc : list nat) (r : nat) (h' : heap) (acc' : list nat) :
  step sign (h, acc) r = Some (h', acc') ->
  exists v,
    nth_error h r = Some v /\
    List.length h' = (List.length h + 2)%nat /\
    (forall m, (m < List.length h)%nat -> nth_error h' m = nth_error h m) /\
    acc' = (acc ++ [S (List.length h)])%list /\
    nth_error h' (S (List.length h)) = Some (sign (clear_links (set_epsg v))).
Proof.
  unfold step, alloc. intros H.
  destruct (nth_error h r) as [v |] eqn:Hv; [| discriminate].
  exists v. split; [reflexivity |].
  set (h1 := (h ++ [v])%list) in *.
  set (item := List.length h) in *.
  assert (H1 : nth_error h1 item = Some v).
  { unfold h1, item. rewrite nth_error_app2 by lia.
    rewrite Nat.sub_diag. reflexivity. }
  set (h2 := update h1 item set_epsg) in *.
  assert (H2 : nth_error h2 item = Some (set_epsg v))
    by (apply update_same; exact H1).
  set (h3 := update h2 item clear_links) in *.
  assert (H3 : nth_error h3 item = Some (clear_links (set_epsg v)))
    by (apply update_same; exact H2).
  rewrite H3 in H. injection H as <- <-.
  assert (Hlen3 : List.length h3 = S item).
  { unfold h3, h2. rewrite !update_length. unfold h1.
    rewrite length_app. simpl. unfold item. lia. }
  repeat split.
  - rewrite length_app, Hlen3. simpl. unfold item. lia.
  - intros m Hm.
    rewrite nth_error_app1 by lia.
    unfold h3, h2. rewrite !update_other by (unfold item; lia).
    unfold h1. apply nth_error_app1. exact Hm.
  - rewrite Hlen3. reflexivity.
  - rewrite nth_error_app2 by lia.
    rewrite Hlen3, Nat.sub_diag. reflexivity.
Qed.

Lemma fold_none (items : list nat) :
  fold_left (fun st r => match st with
                         | Some st' => step sign st' r
                         | None => None
                         end) items None = None.
Proof. induction items; simpl; auto. Qed.

Lemma sign_all_from (h0 : heap) (items : list nat) (h : heap) (acc : list nat)
      (h' : heap) (signed : list nat) :
  (forall m, (m < List.length h0)%nat -> nth_error h m = nth_error h0 m) ->
  (forall r, In r items -> (r < List.length h0)%nat) ->
  fold_left (fun st r => match st with
                         | Some st' => step sign st' r
                         | None => None
                         end) items (Some (h, acc)) = Some (h', signed) ->
  (List.length h <= List.length h')%nat /\
  (forall m, (m < List.length h)%nat -> nth_error h' m = nth_error h m) /\
  exists news,
    signed = (acc ++ news)%list /\
    Forall2 (fun r s =>
               (List.length h0 <= s)%nat /\
               exists v, nth_error h0 r = Some v /\
                         nth_error h' s = Some (sign (clear_links (set_epsg v))))
            items news.
Proof.
  revert h acc. induction items as [| r items IH]; intros h acc Hold Hvalid H;
    cbn [fold_left] in H.
  - injection H as <- <-. split; [lia |]. split; [auto |].
    exists []. split; [symmetry; apply app_nil_r | constructor].
  - destruct (step sign (h, acc) r) as [[h1 acc1] |] eqn:Hstep.
    2:{ rewrite fold_none in H. discriminate. }
    apply step_spec in Hstep.
    destruct Hstep as [v [Hv [Hlen1 [Hkeep [Hacc Hnew]]]]].
    assert (Hr : (r < List.length h0)%nat) by (apply Hvalid; left; reflexivity).
    assert (Hlen0 : (List.length h0 <= List.length h)%nat).
    { destruct (Nat.le_gt_cases (List.length h0) (List.length h)) as [Hle | Hgt];
        [exact Hle |].
      exfalso.
      assert (Hin : (List.length h < List.length h0)%nat) by lia.
      pose proof (Hold _ Hin) as Heq.
      assert (Hnone : nth_error h (List.length h) = None)
        by (apply nth_error_None; lia).
      assert (Hsome : nth_error h0 (List.length h) <> None)
        by (apply nth_error_Some; exact Hin).
      congruence. }
    apply IH in H.
    + destruct H as [Hle [Hkeep' [news [Hsigned HF]]]].
      split; [lia |].
      split.
      { intros m Hm. rewrite Hkeep' by lia. apply Hkeep. exact Hm. }
      exists (S (List.length h) :: news). split.
      { rewrite Hsigned, Hacc, <- app_assoc. reflexivity. }
      constructor; [| exact HF].
      split; [lia |].
      exists v. split.
      * rewrite <- (Hold r Hr). exact Hv.
      * rewrite Hkeep' by lia. exact Hnew.
    + intros m Hm. rewrite Hkeep by lia. apply Hold. exact Hm.
    + intros r' Hr'. apply Hvalid. right. exact Hr'.
Qed.

(** X19: the loop changes nothing it was given: every object that existed
    before it, the items of the search among them, is as it was; and the
    list it builds holds, in the order of the items, one new object per
    item, the signed copy of the item with its metadata fixed. *)
Theorem sign_all_keeps_items (h : heap) (items : list nat)
        (h' : heap) (signed : list nat) :
  (forall r, In r items -> (r < List.length h)%nat) ->
  sign_all sign h items = Some (h', signed) ->
  (forall m, (m < List.length h)%nat -> nth_error h' m = nth_error h m) /\
  Forall2 (fun r s =>
             (List.length h <= s)%nat /\
             exists v, nth_error h r = Some v /\
                       nth_error h' s = Some (sign (clear_links (set_epsg v))))
          items signed.
Proof.
  intros Hvalid H. unfold sign_all in H.
  apply (sign_all_from h) in H; [| auto | exact Hvalid].
  destruct H as [_ [Hkeep [news [-> HF]]]].
  split; [exact Hkeep | exact HF].
Qed.

(** The loop goes through: it signs every item it is given. *)
Lemma sign_all_returns (h : heap) (items : list nat) :
  (forall r, In r items -> (r < List.length h)%nat) ->
  exists h' signed, sign_all sign h items = Some (h', signed).
Proof.
  unfold sign_all. generalize (@nil nat) as acc.
  revert h. induction items as [| r items IH]; intros h acc Hvalid;
    cbn [fold_left].
  - exists h, acc. reflexivity.
  - destruct (step sign (h, acc) r) as [[h1 acc1] |] eqn:Hstep.
    + pose proof (step_spec _ _ _ _ _ Hstep) as [v [_ [Hlen _]]].
      apply IH. intros r' Hr'.
      assert ((r' < List.length h)%nat) by (apply Hvalid; right; exact Hr').
      lia.
    + exfalso.
      assert (Hr : (r < List.length h)%nat) by (apply Hvalid; left; reflexivity).
      unfold step, alloc in Hstep.
      destruct (nth_error h r) as [v |] eqn:Hv.
      2:{ apply nth_error_None in Hv. lia. }
      assert (H1 : nth_error (h ++ [v]) (List.length h) = Some v).
      { rewrite nth_error_app2 by lia. rewrite Nat.sub_diag. reflexivity. }
      rewrite (update_same _ _ clear_links (set_epsg v)) in Hstep;
        [discriminate |].
      apply update_same. exact H1.
Qed.

End Loop.

(** Two items of a search, and a signing that marks the identifier. *)
Lemma sign_all_keeps_items_two :
  let it1 := {| stac_id := "LC08_232082"; properties := [("proj:epsg", JNull)];
                links := ["self"; "collection"] |} in
  let it2 := {| stac_id := "LC08_232083";
                properties := [("landsat:wrs_path", JString "232")];
                links := ["self"] |} in
  let sign := fun v => {| stac_id := stac_id v ++ "?sig";
                          properties := properties v; links := links v |} in
  exists h' signed,
    sign_all sign [it1; it2] [O; 1%nat] = Some (h', signed) /\
    (forall m, (m < 2)%nat -> nth_error h' m = nth_error [it1; it2] m) /\
    Forall2 (fun r s =>
               (2 <= s)%nat /\
               exists v, nth_error [it1; it2] r = Some v /\
                         nth_error h' s = Some (sign (clear_links (set_epsg v))))
            [O; 1%nat] signed.
Proof.
  intros it1 it2 sign. eexists. eexists. split.
  - reflexivity.
  - apply (sign_all_keeps_items sign [it1; it2] [O; 1%nat]).
    + intros r [<- | [<- | []]]; simpl; lia.
    + reflexivity.
Defined.

End LandsatFacts.
